(** * Street quality scoring (score_streets.py): a shallow embedding

    The development follows the Python script top-down: [parse_db_range]
    (noise ingestion), [count_points_near_line] (proximity matching) and
    [score_streets] (matching loop, normalisation, assignment of the four
    score columns).

    Conventions.
    - Python floats are idealised as exact rationals ([Q]); results are
      compared with [==].  Non-finite floats (nan, inf) have no counterpart.
    - A Python exception is a value [Raise e] of the [result] type.
    - Euclidean distances are carried squared, so a test [dist < t] of the
      source reads [d2 < t * t] here (all thresholds are non-negative).
    - scipy's cKDTree and the numpy array primitives are modelled by what
      their documentation promises, by brute force over the indexed data. *)

From Stdlib Require Import Ascii String QArith Qround Qminmax Lqa.
From Stdlib Require Import DecimalString DecimalN.
From Stdlib Require DecimalPos DecimalFacts.
From stdpp Require Import gmap strings list sorting.

Local Open Scope Q_scope.

(** ** Exceptions *)

(** [ShapelyError] stands for an exception raised inside shapely; its
    class is the library's own. *)
Inductive PyError : Type :=
  | ValueError
  | IndexError
  | TypeError
  | ShapelyError.

Inductive result (A : Type) : Type :=
  | Ok (a : A)
  | Raise (e : PyError).
Arguments Ok {A} a.
Arguments Raise {A} e.

#[global] Instance result_ret : MRet result := fun _ a => Ok a.
#[global] Instance result_bind : MBind result := fun _ _ f m =>
  match m with
  | Ok a => f a
  | Raise e => Raise e
  end.

(** ** Python's builtin [min] and [max] on two floats

    [min(a, b)] keeps [a] unless [b < a]; [max(a, b)] keeps [a] unless
    [b > a]. *)

Definition py_min (a b : Q) : Q := if Qlt_le_dec b a then b else a.
Definition py_max (a b : Q) : Q := if Qlt_le_dec a b then b else a.

(** ** Strings: the [str] methods used by [parse_db_range] *)

Module Str.

Local Open Scope string_scope.
Local Open Scope char_scope.

(** [str.isspace] on the code points below 256. *)
Definition is_space (c : ascii) : bool :=
  let n := nat_of_ascii c in
  ((9 <=? n)%nat && (n <=? 13)%nat) || ((28 <=? n)%nat && (n <=? 32)%nat)
  || (n =? 133)%nat || (n =? 160)%nat.

Fixpoint lstrip (s : string) : string :=
  match s with
  | EmptyString => EmptyString
  | String c s' => if is_space c then lstrip s' else s
  end.

Fixpoint rstrip (s : string) : string :=
  match s with
  | EmptyString => EmptyString
  | String c s' =>
      match rstrip s' with
      | EmptyString => if is_space c then EmptyString else String c EmptyString
      | r => String c r
      end
  end.

Definition strip (s : string) : string := rstrip (lstrip s).

Fixpoint startswith (s p : string) : bool :=
  match p, s with
  | EmptyString, _ => true
  | String a p', String b s' => if Ascii.eqb a b then startswith s' p' else false
  | String _ _, EmptyString => false
  end.

(** [s.replace(old, new)] for a non-empty [old]: non-overlapping
    occurrences, leftmost first.  [skip] counts the characters of a
    matched occurrence that are still to be dropped. *)
Fixpoint replace_from (old new s : string) (skip : nat) : string :=
  match s with
  | EmptyString => EmptyString
  | String c s' =>
      match skip with
      | S k => replace_from old new s' k
      | O =>
          if startswith s old
          then (new ++ replace_from old new s' (String.length old - 1))%string
          else String c (replace_from old new s' 0)
      end
  end.

Definition replace (s old new : string) : string := replace_from old new s 0.

(** [s.split(sep)] for a one-character separator. *)
Fixpoint split (s : string) (sep : ascii) : list string :=
  match s with
  | EmptyString => [EmptyString]
  | String c s' =>
      if Ascii.eqb c sep then EmptyString :: split s' sep
      else match split s' sep with
           | h :: t => String c h :: t
           | [] => [String c EmptyString]
           end
  end.

(** Cut at the first occurrence of [c]. *)
Fixpoint cut (s : string) (c : ascii) : string * option string :=
  match s with
  | EmptyString => (EmptyString, None)
  | String a s' =>
      if Ascii.eqb a c then (EmptyString, Some s')
      else let '(h, t) := cut s' c in (String a h, t)
  end.

Definition digits_value (s : string) : option (N * nat) :=
  d ← NilEmpty.uint_of_string s; Some (N.of_uint d, Decimal.nb_digits d).

(** Decimal notation of a natural number, as [str(n)] prints it. *)
Definition dec (n : N) : string := NilEmpty.string_of_uint (N.to_uint n).

(** [float(s)] on decimal literals: optional sign, digits with an
    optional fractional part, at least one digit.  Exponents, [inf],
    [nan] and digit separators are not covered: on those the model
    raises where Python may return a value. *)
Definition sign_split (s : string) : bool * string :=
  match s with
  | String "-" r => (true, r)
  | String "+" r => (false, r)
  | _ => (false, s)
  end.

Definition float (s : string) : result Q :=
  let '(neg, body) := sign_split (strip s) in
  let '(ip, fp) := cut body "." in
  match digits_value ip, digits_value (default EmptyString fp) with
  | Some (i, ni), Some (f, nf) =>
      if (ni + nf =? 0)%nat then Raise ValueError
      else
        let den := (10 ^ N.of_nat nf)%N in
        let v := Qmake (Z.of_N (i * den + f)) (N.succ_pos (N.pred den)) in
        Ok (if neg then - v else v)
  | _, _ => Raise ValueError
  end.

(** Strings made of decimal digits, and of digits and points. *)
Definition is_digit (c : ascii) : bool :=
  let n := nat_of_ascii c in (48 <=? n)%nat && (n <=? 57)%nat.

Definition is_numeric (c : ascii) : bool := is_digit c || Ascii.eqb c ".".

Fixpoint all_digits (s : string) : bool :=
  match s with
  | EmptyString => true
  | String c s' => is_digit c && all_digits s'
  end.

Fixpoint all_numeric (s : string) : bool :=
  match s with
  | EmptyString => true
  | String c s' => is_numeric c && all_numeric s'
  end.

(** [parts[i]] *)
Definition getitem {A} (l : list A) (i : nat) : result A :=
  match l !! i with
  | Some x => Ok x
  | None => Raise IndexError
  end.

End Str.

(** ** STEP 2: noise ingestion *)

Definition parse_db_range (db_string : string) : result Q :=
  let db_string := Str.strip db_string in
  if Str.startswith db_string "<" then Ok 37.5
  else
    let parts := Str.split (Str.strip (Str.replace db_string "dB(A)" "")) "-" in
    p0 ← Str.getitem parts 0;
    low ← Str.float (Str.strip p0);
    p1 ← Str.getitem parts 1;
    high ← Str.float (Str.strip p1);
    Ok ((low + high) / 2).


(** ** Geometry (shapely)

    A segment geometry is a LineString or a MultiLineString.  Its
    [centroid] is computed by shapely; it is carried as an attribute and
    nothing is assumed about it.  The centroid of an empty geometry is
    the empty point: the attribute is meaningless there and is never
    read. *)

Definition Point : Type := Q * Q.

Inductive Shape : Type :=
  | LineString (coords : list Point)
  | MultiLineString (geoms : list (list Point)).

Record Geometry : Type := { shape : Shape; centroid : Point }.

Definition is_empty (g : Geometry) : bool :=
  match shape g with
  | LineString cs => bool_decide (length cs = 0%nat)
  | MultiLineString gs => forallb (λ cs, bool_decide (length cs = 0%nat)) gs
  end.

(** Squared planar distance. *)
Definition dist2 (p q : Point) : Q :=
  (p.1 - q.1) * (p.1 - q.1) + (p.2 - q.2) * (p.2 - q.2).

(** ** Spatial index (scipy.spatial.cKDTree)

    [query_ball_point] lists the indices of the data points within the
    radius, in the order the tree stores them, which scipy leaves
    unspecified: [kd_order] is that order, some permutation of the index
    range chosen by the construction ([IndexOrder]). *)

Record IndexOrder : Type := {
  leaf_order : list Point → list nat;
  leaf_order_perm : ∀ pts, leaf_order pts ≡ₚ seq 0 (length pts)
}.

Definition sorted_order : IndexOrder :=
  {| leaf_order := λ pts, seq 0 (length pts);
     leaf_order_perm := λ pts, reflexivity _ |}.

Record cKDTree : Type := { kd_data : list Point; kd_order : list nat }.

(** [cKDTree(data)]: data with fewer than two dimensions is refused,
    and [np.array] of an empty list has one dimension. *)
Definition cKDTree_build (O : IndexOrder) (data : list Point) : cKDTree :=
  {| kd_data := data; kd_order := leaf_order O data |}.

Definition cKDTree_new (O : IndexOrder) (data : list Point) : result cKDTree :=
  match data with
  | [] => Raise ValueError
  | _ => Ok (cKDTree_build O data)
  end.

Definition within (r : Q) (x : Point) (p : Point) : bool :=
  Qle_bool (dist2 p x) (r * r).

Definition near (t : cKDTree) (x : Point) (r : Q) (i : nat) : bool :=
  match kd_data t !! i with
  | Some p => within r x p
  | None => false
  end.

Definition query_ball_point (t : cKDTree) (x : Point) (r : Q) : list nat :=
  filter (λ i, near t x r i = true) (kd_order t).

(** [query(x)]: squared distance and index of a nearest data point, the
    lowest index among equally near ones; [None] stands for the infinite
    distance scipy reports on a tree without points. *)
Fixpoint nearest_from (x : Point) (data : list Point) (i : nat)
    (best : option (Q * nat)) : option (Q * nat) :=
  match data with
  | [] => best
  | p :: data' =>
      let d := dist2 p x in
      nearest_from x data' (S i)
        (match best with
         | Some (bd, bi) => if Qlt_le_dec d bd then Some (d, i) else best
         | None => Some (d, i)
         end)
  end.

Definition query (t : cKDTree) (x : Point) : option (Q * nat) :=
  nearest_from x (kd_data t) 0 None.

(** ** numpy array primitives *)

Definition QofN (n : nat) : Q := inject_Z (Z.of_nat n).

(** [a.max()] raises on a zero-size array. *)
Definition np_max (a : list nat) : result nat :=
  match a with
  | [] => Raise ValueError
  | x :: a' => Ok (foldr Nat.max x a')
  end.

(** [np.percentile(a, q)] with the default linear interpolation between
    the two closest ranks of the sorted data.  On empty data numpy
    answers nan, which has no counterpart here; the scoring pass never
    asks for it. *)
Definition np_percentile (a : list nat) (q : Q) : Q :=
  let s := merge_sort Nat.le a in
  let h := QofN (length a - 1) * q / 100 in
  let lo := Z.to_nat (Qfloor h) in
  let hi := Nat.min (lo + 1) (length a - 1) in
  let g := h - inject_Z (Qfloor h) in
  let vlo := QofN (default 0%nat (s !! lo)) in
  let vhi := QofN (default 0%nat (s !! hi)) in
  vlo + (vhi - vlo) * g.

(** [np.rint]: nearest integer, ties to even. *)
Definition rint (x : Q) : Z :=
  let f := Qfloor x in
  match Qcompare (x - inject_Z f) (1 # 2) with
  | Lt => f
  | Gt => (f + 1)%Z
  | Eq => if Z.even f then f else (f + 1)%Z
  end.

(** [np.round(x, 3)] *)
Definition np_round3 (x : Q) : Q := inject_Z (rint (x * 1000)) / 1000.


(** ** Data frames (geopandas)

    A GeoDataFrame of street segments: the rows as downloaded, and the
    numeric columns added to it, by name. *)

Record Edge : Type := { name : option string; geometry : option Geometry }.

Record GeoDataFrame : Type := {
  rows : list Edge;
  columns : gmap string (list Q)
}.

Record NoiseRow : Type := {
  tram_id : string;
  noise_db : Q;
  noise_geometry : Geometry
}.

(** [df[col] = values] *)
Definition setitem (df : GeoDataFrame) (col : string) (values : list Q) : GeoDataFrame :=
  {| rows := rows df; columns := <[col := values]> (columns df) |}.

(** [df[col][i]] *)
Definition score_at (df : GeoDataFrame) (col : string) (i : nat) : option Q :=
  vs ← columns df !! col; vs !! i.

(** ** STEP 4: score each street segment *)

Definition BUFFER_METERS : Q := 25.

Definition line_coords (line_geom : Geometry) : list Point :=
  match shape line_geom with
  | MultiLineString geoms => foldl (λ coords line, coords ++ line) [] geoms
  | LineString coords => coords
  end.

Definition count_points_near_line (line_geom : Geometry) (kdtree : cKDTree)
    (points_array : list Point) (buffer_deg : Q) : nat :=
  if is_empty line_geom then 0%nat
  else
    let coords := line_coords line_geom in
    if bool_decide (length coords = 0%nat) then 0%nat
    else
      let nearby : gset nat :=
        foldl (λ nearby coord,
                 nearby ∪ list_to_set (query_ball_point kdtree coord buffer_deg))
              ∅ coords in
      size nearby.

(** The arrays filled by the matching loop. *)
Record Matches : Type := {
  noise_scores : list Q;
  tree_counts : list nat;
  cleaning_counts : list nat;
  poi_counts : list nat
}.

(** The four score arrays before they are rounded into columns. *)
Record Scores : Type := {
  noise : list Q;
  green : list Q;
  clean : list Q;
  cultural : list Q
}.

(** [max(0.0, min(1.0, 1.0 - (db - 37.5) / 40.0))] *)
Definition noise_formula (db : Q) : Q :=
  py_max 0 (py_min 1 (1 - (db - 37.5) / 40)).

(** [np.where(c == 0, 1.0, np.maximum(0.0, 1.0 - c * 0.3))], one entry. *)
Definition clean_formula (c : nat) : Q :=
  if (c =? 0)%nat then 1 else Qmax 0 (1 - QofN c * 0.3).

(** The percentile-cap normalisation shared by trees and POIs:
[[
    if counts.max() > 0:
        cap = max(np.percentile(counts[counts > 0], 90), 1)
        scores = np.minimum(counts / cap, 1.0)
]]
    [scores] enters as the zero array. *)
Definition percentile_cap (counts : list nat) : Q :=
  py_max (np_percentile (filter (λ c, (0 < c)%nat) counts) 90) 1.

Definition normalize_counts (counts : list nat) (scores : list Q) : result (list Q) :=
  m ← np_max counts;
  if (0 <? m)%nat
  then
    let cap := percentile_cap counts in
    Ok ((λ c, Qmin (QofN c / cap) 1) <$> counts)
  else Ok scores.

(** [g.centroid.x], [g.centroid.y]: the centroid of an empty geometry is
    the empty point, which has no coordinates to read. *)
Definition centroid_xy (g : Geometry) : result Point :=
  if is_empty g then Raise ShapelyError else Ok (centroid g).

(** [[[g.centroid.x, g.centroid.y] for g in noise_gdf.geometry]] *)
Fixpoint centroids_of (noise_gdf : list NoiseRow) : result (list Point) :=
  match noise_gdf with
  | [] => Ok []
  | row :: noise_gdf' =>
      c ← centroid_xy (noise_geometry row);
      cs ← centroids_of noise_gdf';
      Ok (c :: cs)
  end.

Section Scoring.

Context (O : IndexOrder).

(** [cKDTree(points) if len(points) > 0 else None] *)
Definition index_of (points : list Point) : result (option cKDTree) :=
  if (0 <? length points)%nat
  then t ← cKDTree_new O points; Ok (Some t)
  else Ok None.

(** [if kdtree is not None: counts[i] = count_points_near_line(...)] *)
Definition count_with (kdtree : option cKDTree) (points : list Point)
    (geom : Geometry) (buffer_deg : Q) (i : nat) (counts : list nat) : list nat :=
  match kdtree with
  | Some t => <[i := count_points_near_line geom t points buffer_deg]> counts
  | None => counts
  end.

(** One iteration of the loop over [enumerate(edges.iterrows())]. *)
Definition score_edge (tree_points cleaning_points poi_points : list Point)
    (buffer_deg : Q)
    (tree_kdtree cleaning_kdtree poi_kdtree : option cKDTree)
    (noise_kdtree : cKDTree) (noise_values : list Q)
    (i : nat) (edge : Edge) (st : Matches) : result Matches :=
  match geometry edge with
  | None => Ok st
  | Some geom =>
      if is_empty geom then Ok st
      else
        let c := centroid geom in
        ns ← match query noise_kdtree c with
             | Some (d2, nearest_idx) =>
                 if Qlt_le_dec d2 (0.001 * 0.001)
                 then db ← Str.getitem noise_values nearest_idx;
                      Ok (<[i := noise_formula db]> (noise_scores st))
                 else Ok (noise_scores st)
             | None => Ok (noise_scores st)
             end;
        Ok {| noise_scores := ns;
              tree_counts :=
                count_with tree_kdtree tree_points geom buffer_deg i (tree_counts st);
              cleaning_counts :=
                count_with cleaning_kdtree cleaning_points geom buffer_deg i
                  (cleaning_counts st);
              poi_counts :=
                count_with poi_kdtree poi_points geom buffer_deg i (poi_counts st) |}
  end.

Fixpoint score_loop (body : nat → Edge → Matches → result Matches)
    (edges : list Edge) (i : nat) (st : Matches) : result Matches :=
  match edges with
  | [] => Ok st
  | edge :: edges' => st' ← body i edge st; score_loop body edges' (S i) st'
  end.

(** Lines 248-304: indices, defaults and the matching loop. *)
Definition match_edges (edges : GeoDataFrame) (noise_gdf : list NoiseRow)
    (tree_points cleaning_points poi_points : list Point) : result Matches :=
  let buffer_deg := BUFFER_METERS / 111000 in
  tree_kdtree ← index_of tree_points;
  cleaning_kdtree ← index_of cleaning_points;
  poi_kdtree ← index_of poi_points;
  noise_centroids ← centroids_of noise_gdf;
  noise_kdtree ← cKDTree_new O noise_centroids;
  let noise_values := noise_db <$> noise_gdf in
  let n_edges := length (rows edges) in
  score_loop
    (score_edge tree_points cleaning_points poi_points buffer_deg
       tree_kdtree cleaning_kdtree poi_kdtree noise_kdtree noise_values)
    (rows edges) 0
    {| noise_scores := replicate n_edges 0.5;
       tree_counts := replicate n_edges 0%nat;
       cleaning_counts := replicate n_edges 0%nat;
       poi_counts := replicate n_edges 0%nat |}.

(** Lines 306-321: normalisation to the four score arrays. *)
Definition normalize (n_edges : nat) (m : Matches) : result Scores :=
  green_scores ← normalize_counts (tree_counts m) (replicate n_edges 0);
  let clean_scores := clean_formula <$> cleaning_counts m in
  cultural_scores ← normalize_counts (poi_counts m) (replicate n_edges 0);
  Ok {| noise := noise_scores m; green := green_scores;
        clean := clean_scores; cultural := cultural_scores |}.

Definition score_arrays (edges : GeoDataFrame) (noise_gdf : list NoiseRow)
    (tree_points cleaning_points poi_points : list Point) : result Scores :=
  m ← match_edges edges noise_gdf tree_points cleaning_points poi_points;
  normalize (length (rows edges)) m.

(** Lines 323-328: the columns are assigned to a copy of [edges]. *)
Definition assign_scores (edges : GeoDataFrame) (s : Scores) : GeoDataFrame :=
  let edges := setitem edges "noise_score" (np_round3 <$> noise s) in
  let edges := setitem edges "green_score" (np_round3 <$> green s) in
  let edges := setitem edges "clean_score" (np_round3 <$> clean s) in
  setitem edges "cultural_score" (np_round3 <$> cultural s).

Definition score_streets (edges : GeoDataFrame) (noise_gdf : list NoiseRow)
    (tree_points cleaning_points poi_points : list Point) : result GeoDataFrame :=
  s ← score_arrays edges noise_gdf tree_points cleaning_points poi_points;
  Ok (assign_scores edges s).

End Scoring.

(** ** Objects and references

    Python passes the five arguments by reference.  The store maps object
    identities to the objects; [score_streets_ref] is [score_streets] with
    its reads, the copy ([edges.copy()]) and the four column assignments
    acting on the store. *)

Inductive PyObject : Type :=
  | ObjFrame (df : GeoDataFrame)
  | ObjNoise (noise_gdf : list NoiseRow)
  | ObjPoints (points : list Point).

Definition Heap (A : Type) : Type := gmap nat PyObject → result A * gmap nat PyObject.

#[global] Instance heap_ret : MRet Heap := λ _ a σ, (Ok a, σ).
#[global] Instance heap_bind : MBind Heap := λ _ _ f m σ,
  match m σ with
  | (Ok a, σ') => f a σ'
  | (Raise e, σ') => (Raise e, σ')
  end.

Definition lift_result {A} (r : result A) : Heap A := λ σ, (r, σ).

Definition read_frame (l : nat) : Heap GeoDataFrame := λ σ,
  match σ !! l with
  | Some (ObjFrame df) => (Ok df, σ)
  | _ => (Raise TypeError, σ)
  end.

Definition read_noise (l : nat) : Heap (list NoiseRow) := λ σ,
  match σ !! l with
  | Some (ObjNoise rs) => (Ok rs, σ)
  | _ => (Raise TypeError, σ)
  end.

Definition read_points (l : nat) : Heap (list Point) := λ σ,
  match σ !! l with
  | Some (ObjPoints ps) => (Ok ps, σ)
  | _ => (Raise TypeError, σ)
  end.

(** [df.copy()]: a new object with the same rows and columns. *)
Definition frame_copy (l : nat) : Heap nat := λ σ,
  match σ !! l with
  | Some (ObjFrame df) =>
      let l' := fresh (dom σ) in (Ok l', <[l' := ObjFrame df]> σ)
  | _ => (Raise TypeError, σ)
  end.

(** [df[col] = values] on the object [l]. *)
Definition frame_setitem (l : nat) (col : string) (values : list Q) : Heap unit := λ σ,
  match σ !! l with
  | Some (ObjFrame df) => (Ok (), <[l := ObjFrame (setitem df col values)]> σ)
  | _ => (Raise TypeError, σ)
  end.

Definition score_streets_ref (O : IndexOrder)
    (edges noise_gdf tree_points cleaning_points poi_points : nat) : Heap nat :=
  tree_array ← read_points tree_points;
  cleaning_array ← read_points cleaning_points;
  poi_array ← read_points poi_points;
  noise_rows ← read_noise noise_gdf;
  frame ← read_frame edges;
  s ← lift_result
         (score_arrays O frame noise_rows tree_array cleaning_array poi_array);
  edges ← frame_copy edges;
  _ ← frame_setitem edges "noise_score" (np_round3 <$> noise s);
  _ ← frame_setitem edges "green_score" (np_round3 <$> green s);
  _ ← frame_setitem edges "clean_score" (np_round3 <$> clean s);
  _ ← frame_setitem edges "cultural_score" (np_round3 <$> cultural s);
  mret edges.

(** ** Reference readings of matching and normalisation

    What each array entry is meant to hold, segment by segment, stated
    without the loop; the properties below relate the script to them. *)

(** Is the [i]-th point of the cloud within [r] of some vertex? *)
Definition index_near (points coords : list Point) (r : Q) (i : nat) : bool :=
  match points !! i with
  | Some p => existsb (λ v, within r v p) coords
  | None => false
  end.

(** The number of distinct indexed points within [r] of at least one
    vertex. *)
Definition distinct_near (points coords : list Point) (r : Q) : nat :=
  length (filter (λ i, index_near points coords r i = true)
            (seq 0 (length points))).

(** The raw count of one segment for one point cloud. *)
Definition segment_count (points : list Point) (edge : Edge) : nat :=
  match geometry edge with
  | Some g =>
      if is_empty g then 0%nat
      else distinct_near points (line_coords g) (BUFFER_METERS / 111000)
  | None => 0%nat
  end.

(** The noise observation adopted for a segment: the nearest centroid if
    it lies closer than the threshold. *)
Definition matched_db (noise_gdf : list NoiseRow) (edge : Edge) : option Q :=
  match geometry edge with
  | Some g =>
      if is_empty g then None
      else
        match nearest_from (centroid g)
                ((λ r, centroid (noise_geometry r)) <$> noise_gdf) 0 None with
        | Some (d2, idx) =>
            if Qlt_le_dec d2 (0.001 * 0.001) then noise_db <$> noise_gdf !! idx
            else None
        | None => None
        end
  | None => None
  end.

Definition segment_noise (noise_gdf : list NoiseRow) (edge : Edge) : Q :=
  match matched_db noise_gdf edge with
  | Some db => noise_formula db
  | None => 0.5
  end.

(** The percentile-cap normalisation as the design document words it:
    all zero when no count is positive, otherwise [min(count / cap, 1)]
    with [cap = max(90th percentile of the nonzero counts, 1)]. *)
Definition normalized (counts : list nat) : list Q :=
  if forallb (λ c, (c =? 0)%nat) counts then replicate (length counts) 0
  else
    (λ c, Qmin (QofN c
                / Qmax (np_percentile (filter (λ c, (0 < c)%nat) counts) 90) 1) 1)
      <$> counts.

(** What the normalisation promises for one segment with raw count
    [count] among the counts of all segments. *)
Definition cap_normalised (counts : list nat) (count : nat) (v : Q) : Prop :=
  let cap := Qmax (np_percentile (filter (λ c, (0 < c)%nat) counts) 90) 1 in
  (Forall (λ c, c = 0%nat) counts → v = 0)
  ∧ (Exists (λ c, (0 < c)%nat) counts → v = Qmin (QofN count / cap) 1)
  ∧ (count = 0%nat → v == 0)
  ∧ (Exists (λ c, (0 < c)%nat) counts → QofN count == cap → v == 1)
  ∧ 0 <= v <= 1.

(** The nearest observations to a point, as a relation on the rows. *)
Definition nearest_observation (noise_gdf : list NoiseRow) (c : Point)
    (row : NoiseRow) : Prop :=
  row ∈ noise_gdf
  ∧ ∀ row', row' ∈ noise_gdf →
      dist2 (centroid (noise_geometry row)) c
      <= dist2 (centroid (noise_geometry row')) c.

(** Every observation has a geometry with coordinates. *)
Definition located (noise_gdf : list NoiseRow) : Prop :=
  Forall (λ row, is_empty (noise_geometry row) = false) noise_gdf.

(** A segment without usable geometry. *)
Definition no_geometry (edge : Edge) : Prop :=
  geometry edge = None ∨ ∃ g, geometry edge = Some g ∧ is_empty g = true.

(** The four score arrays in terms of the reference readings. *)
Definition reference_scores (edges : GeoDataFrame) (noise_gdf : list NoiseRow)
    (tree_points cleaning_points poi_points : list Point) : Scores :=
  {| noise := segment_noise noise_gdf <$> rows edges;
     green := normalized (segment_count tree_points <$> rows edges);
     clean := clean_formula <$> (segment_count cleaning_points <$> rows edges);
     cultural := normalized (segment_count poi_points <$> rows edges) |}.

(** ** Auxiliary definitions

    Names for pieces of [match_edges] that the proofs refer to. *)

(** The index [score_streets] builds for a point cloud. *)
Definition kdtree_of (O : IndexOrder) (points : list Point) : option cKDTree :=
  if (0 <? length points)%nat then Some (cKDTree_build O points) else None.

(** The loop body with the arguments [match_edges] gives it. *)
Definition edge_body (O : IndexOrder) (noise_gdf : list NoiseRow)
    (tree_points cleaning_points poi_points : list Point) :
    nat → Edge → Matches → result Matches :=
  score_edge tree_points cleaning_points poi_points (BUFFER_METERS / 111000)
    (kdtree_of O tree_points) (kdtree_of O cleaning_points)
    (kdtree_of O poi_points)
    (cKDTree_build O ((λ r, centroid (noise_geometry r)) <$> noise_gdf))
    (noise_db <$> noise_gdf).

(** What [nearest_from] knows about its best candidate once it has
    scanned the points [pre]. *)
Definition nearest_inv (x : Point) (pre : list Point) (best : option (Q * nat)) : Prop :=
  match best with
  | None => pre = []
  | Some (d, k) =>
      ∃ p, pre !! k = Some p ∧ d = dist2 p x
           ∧ ∀ j q, pre !! j = Some q → d <= dist2 q x
  end.

(** ** A small scene used to exercise the statements

    One segment with geometry next to a 72.5 dB observation, three trees
    and one cleaning spot; one segment without geometry. *)

Definition sample_geometry : Geometry :=
  {| shape := LineString [(0, 0); (0.0001, 0)]; centroid := (0.00005, 0) |}.

Definition sample_edges : GeoDataFrame :=
  {| rows := [ {| name := Some "Carrer A"; geometry := Some sample_geometry |};
               {| name := None; geometry := None |} ];
     columns := ∅ |}.

Definition sample_noise : list NoiseRow :=
  [ {| tram_id := "T1"; noise_db := 72.5; noise_geometry := sample_geometry |} ].

Definition sample_trees : list Point :=
  [(0, 0.0001); (0.00005, 0.0001); (0.0001, 0.0001)].

Definition sample_scored : GeoDataFrame :=
  assign_scores sample_edges
    (reference_scores sample_edges sample_noise sample_trees [(0, 0)] []).

(** ** STEP 3: loading the point data

    The loaders are modelled from the rows on: a CSV row is the mapping
    [csv.DictReader] yields for a line, a GeoJSON feature is the value
    [json.load] builds. *)

(** [try: ... except (...): continue] around a call of the model: the
    exception ends the iteration. *)
Definition caught {A} (r : result A) : option A :=
  match r with
  | Ok a => Some a
  | Raise _ => None
  end.

Definition Qltb (a b : Q) : bool := if Qlt_le_dec a b then true else false.
Definition Qleb (a b : Q) : bool := if Qlt_le_dec b a then false else true.

(** [41.0 < lat < 42.0 and 1.5 < lng < 2.5] *)
Definition in_barcelona (lat lng : Q) : bool :=
  Qltb 41 lat && Qltb lat 42 && Qltb 1.5 lng && Qltb lng 2.5.

(** A row of the tree and cleaning files: a column of the header that the
    line is too short for holds [None] ([restval]). *)
Definition CsvRow : Type := gmap string (option string).

(** [float(row[key])] under [except (ValueError, KeyError): continue]:
    [Ok None] is an exception that the handler catches, [Raise] one that
    it does not ([float(None)] raises TypeError). *)
Definition csv_float (row : CsvRow) (key : string) : result (option Q) :=
  match row !! key with
  | None => Ok None
  | Some None => Raise TypeError
  | Some (Some field) =>
      match Str.float field with
      | Ok v => Ok (Some v)
      | Raise ValueError => Ok None
      | Raise e => Raise e
      end
  end.

(** The body of the loops over the tree and cleaning rows; [Ok None] is
    an iteration that appends nothing. *)
Definition csv_point (lat_key lng_key : string) (row : CsvRow) :
    result (option Point) :=
  lat ← csv_float row lat_key;
  match lat with
  | None => Ok None
  | Some lat =>
      lng ← csv_float row lng_key;
      match lng with
      | None => Ok None
      | Some lng => Ok (if in_barcelona lat lng then Some (lng, lat) else None)
      end
  end.

Fixpoint csv_points (lat_key lng_key : string) (rows : list CsvRow) :
    result (list Point) :=
  match rows with
  | [] => Ok []
  | row :: rows' =>
      p ← csv_point lat_key lng_key row;
      points ← csv_points lat_key lng_key rows';
      Ok (match p with Some p => p :: points | None => points end)
  end.

Definition load_trees (street_rows park_rows : list CsvRow) : result (list Point) :=
  street ← csv_points "latitud" "longitud" street_rows;
  park ← csv_points "latitud" "longitud" park_rows;
  Ok (street ++ park).

Definition load_cleaning_spots (rows : list CsvRow) : result (list Point) :=
  csv_points "Latitud" "Longitud" rows.

(** Values built by [json.load].  [JObj] lists the items of a dict, whose
    keys are distinct. *)
#[local] Unset Elimination Schemes.
Inductive JSON : Type :=
  | JNull
  | JBool (b : bool)
  | JNum (q : Q)
  | JStr (s : string)
  | JArr (items : list JSON)
  | JObj (fields : list (string * JSON)).
#[local] Set Elimination Schemes.

Fixpoint assoc (fields : list (string * JSON)) (key : string) : option JSON :=
  match fields with
  | [] => None
  | (k, v) :: fields' => if String.eqb k key then Some v else assoc fields' key
  end.

(** [value[key]] inside the [try] of [load_pois]: a missing key raises
    KeyError, a value that is not a dict TypeError; both are caught. *)
Definition subscript (value : JSON) (key : string) : option JSON :=
  match value with
  | JObj fields => assoc fields key
  | _ => None
  end.

(** [lng, lat = value]: the three outcomes of unpacking into two names. *)
Inductive Unpacked : Type :=
  | Pair (lng lat : JSON)
  | WrongLength
  | NotIterable.

Fixpoint chars (s : string) : list JSON :=
  match s with
  | EmptyString => []
  | String c s' => JStr (String c EmptyString) :: chars s'
  end.

Definition unpack2 (value : JSON) : Unpacked :=
  let of_items (items : list JSON) :=
    match items with
    | [lng; lat] => Pair lng lat
    | _ => WrongLength
    end in
  match value with
  | JArr items => of_items items
  | JStr s => of_items (chars s)
  | JObj fields => of_items ((λ kv, JStr kv.1) <$> fields)
  | JNull | JBool _ | JNum _ => NotIterable
  end.

(** [41.0 < lat < 42.0 and 1.5 < lng < 2.5] on unpacked values: only two
    numbers can pass; a [bool] compares as 0 or 1 and fails, anything else
    raises TypeError, which is caught. *)
Definition poi_in_bounds (lng lat : JSON) : option Point :=
  match lat, lng with
  | JNum lat, JNum lng => if in_barcelona lat lng then Some (lng, lat) else None
  | _, _ => None
  end.

(** [value == s] for a string literal [s] *)
Definition is_str (value : JSON) (s : string) : bool :=
  match value with
  | JStr t => String.eqb t s
  | _ => false
  end.

(** One iteration of the loop of [load_pois].  Unpacking a value of the
    wrong length raises ValueError, which the [except] does not list. *)
Definition poi_feature (feature : JSON) : result (option Point) :=
  match subscript feature "geometry" with
  | None => Ok None
  | Some geom =>
      match subscript geom "type" with
      | None => Ok None
      | Some type =>
          if is_str type "Point" then
            match subscript geom "coordinates" with
            | None => Ok None
            | Some coordinates =>
                match unpack2 coordinates with
                | Pair lng lat => Ok (poi_in_bounds lng lat)
                | WrongLength => Raise ValueError
                | NotIterable => Ok None
                end
            end
          else Ok None
      end
  end.

(** [load_pois] from [for feature in data["features"]] on, [features]
    being that list. *)
Fixpoint load_pois (features : list JSON) : result (list Point) :=
  match features with
  | [] => Ok []
  | feature :: features' =>
      p ← poi_feature feature;
      points ← load_pois features';
      Ok (match p with Some p => p :: points | None => points end)
  end.

(** ** STEP 2: loading the noise data

    [read_geometry] stands for [wkt.loads] followed by the reprojection
    to WGS84, both outside the script.  Every exception inside the loop
    is caught ([except Exception]).  The rows are those of lines with as
    many fields as the header. *)



(** ** STEP 5: export

    The frame that [export_geojson] hands to [to_file]; [None] stands
    for an exception (the KeyError of the column selection, or the
    rounding of a missing geometry).  [round_geometry] stands for the WKT
    round trip at six decimals. *)

Definition in_bbox (c : Point) : bool :=
  Qleb 2.13 c.1 && Qleb c.1 2.21 && Qleb 41.37 c.2 && Qleb c.2 41.42.

(** The mask: the centroid of a missing or empty geometry has no
    coordinates (nan), and every comparison with it is false. *)
Definition export_mask (edge : Edge) : bool :=
  match geometry edge with
  | Some g => if is_empty g then false else in_bbox (centroid g)
  | None => false
  end.

(** [values[mask]] *)
Fixpoint select {A} (mask : list bool) (values : list A) : list A :=
  match mask, values with
  | keep :: mask', v :: values' =>
      if keep then v :: select mask' values' else select mask' values'
  | _, _ => []
  end.

(** [df[mask]] *)
Definition frame_select (mask : list bool) (df : GeoDataFrame) : GeoDataFrame :=
  {| rows := select mask (rows df); columns := select mask <$> columns df |}.

(** [df[keep_cols]] for the four score columns (geometry and name travel
    with the rows). *)
Definition keep_scores (df : GeoDataFrame) : option GeoDataFrame :=
  n ← columns df !! "noise_score";
  g ← columns df !! "green_score";
  c ← columns df !! "clean_score";
  k ← columns df !! "cultural_score";
  Some {| rows := rows df;
          columns := {[ "noise_score" := n; "green_score" := g;
                        "clean_score" := c; "cultural_score" := k ]} |}.

Definition not_empty (edge : Edge) : bool :=
  match geometry edge with
  | Some g => negb (is_empty g)
  | None => true
  end.

(** The lambda applied to a row's geometry; [wkt.dumps] raises on a
    missing geometry: [None]. *)
Definition round_row (round_geometry : Geometry → Geometry) (edge : Edge) :
    option Edge :=
  g ← geometry edge;
  Some {| name := name edge; geometry := Some (round_geometry g) |}.

Definition export_geojson (round_geometry : Geometry → Geometry)
    (edges : GeoDataFrame) : option GeoDataFrame :=
  let output := frame_select (export_mask <$> rows edges) edges in
  output ← keep_scores output;
  let output := frame_select (not_empty <$> rows output) output in
  rounded ← mapM (round_row round_geometry) (rows output);
  Some {| rows := rounded; columns := columns output |}.

(** ** MAIN

    [main] from the calls of the loaders to the hand-over of the frame to
    [to_file]: [edges] is what [get_street_network] returned, the other
    arguments are the contents of the five files.  [None] is an exception
    that ends the run. *)



(** ** Auxiliary predicates on strings *)

Fixpoint all_space (s : string) : bool :=
  match s with
  | EmptyString => true
  | String c s' => Str.is_space c && all_space s'
  end.

Fixpoint has_char (c : ascii) (s : string) : bool :=
  match s with
  | EmptyString => false
  | String a s' => Ascii.eqb a c || has_char c s'
  end.



(** ** Sample rows and features *)

Definition sample_tree_row : CsvRow :=
  {[ "latitud" := Some "41.40"; "longitud" := Some "2.17" ]}%string.


(** A GeoJSON Point that carries an altitude. *)
Definition sample_poi_3d : JSON :=
  JObj [("type", JStr "Feature");
        ("geometry", JObj [("type", JStr "Point");
                           ("coordinates", JArr [JNum 2.17; JNum 41.38; JNum 12])])]%string.

Definition sample_poi : JSON :=
  JObj [("type", JStr "Feature");
        ("geometry", JObj [("type", JStr "Point");
                           ("coordinates", JArr [JNum 2.17; JNum 41.38])])]%string.




(** What [load_noise_data] makes of [sample_noise_csv_row]. *)
Definition sample_loaded_noise : list NoiseRow :=
  [ {| tram_id := "T1"; noise_db := 145 # 2; noise_geometry := sample_geometry |} ].

(** A segment in the Eixample, and a frame with it and a segment far from
    the city. *)
Definition sample_city_geometry : Geometry :=
  {| shape := LineString [(2.17, 41.38); (2.1701, 41.38)];
     centroid := (2.17005, 41.38) |}.

Definition sample_city_edges : GeoDataFrame :=
  {| rows := [ {| name := None; geometry := Some sample_geometry |};
               {| name := Some "Carrer B"; geometry := Some sample_city_geometry |} ];
     columns := ∅ |}.

(** ** Auxiliary predicates on rows *)

(** The line is too short for the latitude column, or its latitude can be
    read and it is too short for the longitude column. *)
Definition short_row (lat_key lng_key : string) (row : CsvRow) : Prop :=
  row !! lat_key = Some None
  ∨ ∃ field lat, row !! lat_key = Some (Some field) ∧ Str.float field = Ok lat
                 ∧ row !! lng_key = Some None.




(** ** Auxiliary predicates on the exported scores *)

(** [v] holds [x] rounded to three decimals: a multiple of 0.001 between
    0 and 1, at most 0.0005 away from [x]. *)
Definition three_decimals (x : Q) (v : option Q) : Prop :=
  ∃ k : Z, v = Some (inject_Z k / 1000)
           ∧ (0 ≤ k ≤ 1000)%Z
           ∧ - (1 # 2000) <= inject_Z k / 1000 - x
           ∧ inject_Z k / 1000 - x <= 1 # 2000.

Definition score_columns : list string :=
  ["noise_score"; "green_score"; "clean_score"; "cultural_score"]%string.

(** * Properties *)

(** ** Sample evaluations of the numpy model *)

Example np_percentile_ex : np_percentile [1; 2; 3; 4; 10]%nat 90 == 7.6.
Proof. vm_compute. reflexivity. Qed.

Example np_round3_ex : np_round3 0.6875 == 0.688.
Proof. vm_compute. reflexivity. Qed.

(** ** Properties of the string model *)

Module StrFacts.
Import Str.
Local Open Scope string_scope.

Lemma numeric_char c :
  is_numeric c = true →
  is_space c = false ∧ Ascii.eqb c "-" = false ∧ Ascii.eqb "d" c = false
  ∧ Ascii.eqb "<" c = false.
Proof.
  destruct c as [[] [] [] [] [] [] [] []]; intros H;
    try discriminate H; repeat split; reflexivity.
Qed.

Lemma digit_char c :
  is_digit c = true →
  is_numeric c = true ∧ Ascii.eqb c "." = false
  ∧ ∀ s, sign_split (String c s) = (false, String c s).
Proof.
  destruct c as [[] [] [] [] [] [] [] []]; intros H;
    try discriminate H; repeat split; reflexivity.
Qed.

Lemma all_digits_numeric D : all_digits D = true → all_numeric D = true.
Proof.
  induction D as [|c D IH]; [done|]. simpl.
  intros [Hc HD]%andb_true_iff.
  destruct (digit_char c Hc) as (-> & _). by rewrite IH.
Qed.

Lemma string_of_uint_digits d : all_digits (NilEmpty.string_of_uint d) = true.
Proof. induction d; simpl; auto. Qed.

Lemma dec_digits n : all_digits (dec n) = true.
Proof. apply string_of_uint_digits. Qed.

Lemma dec_numeric n : all_numeric (dec n) = true.
Proof. apply all_digits_numeric, dec_digits. Qed.

Lemma dec_nonempty n : dec n ≠ "".
Proof.
  unfold dec. destruct n as [|p]; [discriminate|].
  simpl. pose proof (DecimalPos.Unsigned.to_uint_nonnil p) as Hp.
  destruct (Pos.to_uint p); simpl; congruence.
Qed.

Lemma app_nonempty a c b : a ++ String c b ≠ "".
Proof. destruct a; discriminate. Qed.

Lemma rstrip_app a b : rstrip b ≠ "" → rstrip (a ++ b) = a ++ rstrip b.
Proof.
  intros Hb. induction a as [|c a IH]; [done|].
  change (rstrip (String c (a ++ b)) = String c (a ++ rstrip b)).
  cbn [rstrip]. rewrite IH. destruct (a ++ rstrip b) eqn:E; [|done].
  destruct a; simpl in E; [contradiction | discriminate].
Qed.

Lemma rstrip_numeric D : all_numeric D = true → rstrip D = D.
Proof.
  induction D as [|c D IH]; simpl; [done|].
  intros [Hc HD]%andb_true_iff. rewrite (IH HD).
  destruct (numeric_char c Hc) as (-> & _). by destruct D.
Qed.

Lemma rstrip_numeric_space D :
  all_numeric D = true → D ≠ "" → rstrip (D ++ " ") = D.
Proof.
  induction D as [|c D IH]; simpl; [done|].
  intros [Hc HD]%andb_true_iff _.
  destruct D as [|c' D'].
  - simpl. by destruct (numeric_char c Hc) as (-> & _).
  - rewrite IH by done. done.
Qed.

Lemma lstrip_numeric D s :
  all_numeric D = true → D ≠ "" → lstrip (D ++ s) = D ++ s.
Proof.
  destruct D as [|c D]; [done|]. simpl.
  intros [Hc _]%andb_true_iff _.
  by destruct (numeric_char c Hc) as (-> & _).
Qed.

Lemma strip_numeric D : all_numeric D = true → strip D = D.
Proof.
  intros HD. unfold strip. destruct D as [|c D]; [done|].
  apply andb_true_iff in HD as HD'. destruct HD' as [Hc _].
  cbn [lstrip]. destruct (numeric_char c Hc) as (-> & _).
  by apply rstrip_numeric.
Qed.

Lemma startswith_numeric D s :
  all_numeric D = true → D ≠ "" → startswith (D ++ s) "<" = false.
Proof.
  destruct D as [|a D]; [done|].
  intros [Ha _]%andb_true_iff _.
  change (String a D ++ s) with (String a (D ++ s)). cbn [startswith].
  by destruct (numeric_char a Ha) as (_ & _ & _ & ->).
Qed.

Lemma replace_step c s :
  Ascii.eqb "d" c = false →
  replace_from "dB(A)" "" (String c s) 0 = String c (replace_from "dB(A)" "" s 0).
Proof. intros H. cbn [replace_from startswith]. by rewrite H. Qed.

Lemma replace_numeric D s :
  all_numeric D = true →
  replace_from "dB(A)" "" (D ++ s) 0 = D ++ replace_from "dB(A)" "" s 0.
Proof.
  induction D as [|c D IH]; [done|].
  intros [Hc HD]%andb_true_iff.
  change (String c D ++ s) with (String c (D ++ s)).
  destruct (numeric_char c Hc) as (_ & _ & Hd & _).
  by rewrite (replace_step c _ Hd), IH.
Qed.

Lemma split_numeric D s h t :
  all_numeric D = true → split s "-" = h :: t →
  split (D ++ s) "-" = (D ++ h) :: t.
Proof.
  intros HD Hs. induction D as [|c D IH]; [done|].
  apply andb_true_iff in HD as [Hc HD].
  simpl. destruct (numeric_char c Hc) as (_ & -> & _).
  by rewrite (IH HD).
Qed.

Lemma split_numeric_only D : all_numeric D = true → split D "-" = [D].
Proof.
  induction D as [|c D IH]; [done|].
  intros [Hc HD]%andb_true_iff.
  simpl. destruct (numeric_char c Hc) as (_ & -> & _).
  by rewrite (IH HD).
Qed.

Lemma cut_digits D : all_digits D = true → cut D "." = (D, None).
Proof.
  induction D as [|c D IH]; [done|].
  intros [Hc HD]%andb_true_iff.
  simpl. destruct (digit_char c Hc) as (_ & -> & _).
  by rewrite (IH HD).
Qed.

Lemma float_dec n : float (dec n) = Ok (Z.of_N n # 1).
Proof.
  unfold float. rewrite strip_numeric by apply dec_numeric.
  pose proof (dec_nonempty n) as Hne. pose proof (dec_digits n) as Hd.
  destruct (dec n) as [|c D] eqn:E; [done|].
  apply andb_true_iff in Hd as Hd'. destruct Hd' as [Hc _].
  destruct (digit_char c Hc) as (_ & _ & ->).
  rewrite cut_digits by done. rewrite <- E. unfold dec, digits_value.
  rewrite NilEmpty.usu. simpl.
  destruct (Decimal.nb_digits (N.to_uint n)) eqn:Hnb.
  - apply DecimalFacts.nb_digits_0 in Hnb. unfold dec in E. rewrite Hnb in E. done.
  - rewrite Nat.add_0_r. simpl. rewrite DecimalN.Unsigned.of_to.
    rewrite N.mul_1_r, N.add_0_r. done.
Qed.

Section Range.

Context (lo hi : string).
Context (Hlo : all_numeric lo = true) (Hlo' : lo ≠ "").
Context (Hhi : all_numeric hi = true) (Hhi' : hi ≠ "").

Lemma strip_range :
  strip (lo ++ " - " ++ hi ++ " dB(A)") = lo ++ " - " ++ hi ++ " dB(A)".
Proof.
  unfold strip. rewrite lstrip_numeric by done.
  assert (rstrip (hi ++ " dB(A)") = hi ++ " dB(A)") as H1
    by (by rewrite rstrip_app).
  assert (rstrip (" - " ++ hi ++ " dB(A)") = " - " ++ hi ++ " dB(A)") as H2.
  { rewrite (rstrip_app " - "); rewrite H1; [done | apply app_nonempty]. }
  rewrite rstrip_app; rewrite H2; done.
Qed.

Lemma replace_range :
  replace (lo ++ " - " ++ hi ++ " dB(A)") "dB(A)" "" = lo ++ " - " ++ hi ++ " ".
Proof.
  unfold replace. rewrite replace_numeric by done.
  f_equal.
  change (" - " ++ hi ++ " dB(A)")
    with (String " " (String "-" (String " " (hi ++ " dB(A)")))).
  rewrite !replace_step by done.
  rewrite replace_numeric by done. done.
Qed.

Lemma strip_replaced : strip (lo ++ " - " ++ hi ++ " ") = lo ++ " - " ++ hi.
Proof.
  unfold strip. rewrite lstrip_numeric by done.
  assert (rstrip (hi ++ " ") = hi) as H1 by auto using rstrip_numeric_space.
  assert (rstrip (" - " ++ hi ++ " ") = " - " ++ hi) as H2.
  { rewrite (rstrip_app " - "); rewrite H1; done. }
  rewrite rstrip_app; rewrite H2; done.
Qed.

Lemma split_range : split (lo ++ " - " ++ hi) "-" = [lo ++ " "; " " ++ hi].
Proof.
  apply split_numeric; [done|].
  change (" - " ++ hi) with (String " " (String "-" (String " " hi))).
  cbn [split]. change (Ascii.eqb " " "-") with false.
  change (Ascii.eqb "-" "-") with true. cbv iota.
  by rewrite split_numeric_only.
Qed.

Lemma strip_low : strip (lo ++ " ") = lo.
Proof.
  unfold strip. rewrite lstrip_numeric by done.
  auto using rstrip_numeric_space.
Qed.

Lemma strip_high : strip (" " ++ hi) = hi.
Proof. by apply (strip_numeric hi). Qed.

Lemma parse_range l h :
  float lo = Ok l → float hi = Ok h →
  parse_db_range (lo ++ " - " ++ hi ++ " dB(A)") = Ok ((l + h) / 2)%Q.
Proof.
  intros Hl Hh. unfold parse_db_range. rewrite strip_range.
  rewrite startswith_numeric by done.
  rewrite replace_range, strip_replaced, split_range.
  cbn [getitem lookup list_lookup mbind result_bind].
  by rewrite strip_low, Hl, strip_high, Hh.
Qed.

End Range.

Lemma parse_less_than s : parse_db_range (String "<" s) = Ok 37.5%Q.
Proof.
  unfold parse_db_range, strip. cbn [lstrip is_space].
  change (is_space "<") with false. cbv iota.
  cbn [rstrip]. change (is_space "<") with false.
  by destruct (rstrip s).
Qed.

End StrFacts.

(** C7. [parse_db_range] returns the arithmetic mean of the two bounds of a
    range written [lo - hi dB(A)], for bounds written as decimal numbers
    (every natural number among them), and 37.5 on every string that
    starts with [<]; ["70 - 75 dB(A)"] gives 72.5 and ["< 40 dB(A)"] gives
    37.5. *)
Theorem parse_db_range_midpoint :
  (∀ lo hi l h,
      Str.all_numeric lo = true → lo ≠ ""%string →
      Str.all_numeric hi = true → hi ≠ ""%string →
      Str.float lo = Ok l → Str.float hi = Ok h →
      parse_db_range (lo ++ " - " ++ hi ++ " dB(A)") = Ok ((l + h) / 2))
  ∧ (∀ lo hi : N,
      parse_db_range (Str.dec lo ++ " - " ++ Str.dec hi ++ " dB(A)")
      = Ok ((inject_Z (Z.of_N lo) + inject_Z (Z.of_N hi)) / 2))
  ∧ (∀ s, parse_db_range (String "<" s) = Ok 37.5)
  ∧ (∃ v, parse_db_range "70 - 75 dB(A)" = Ok v ∧ v == 72.5)
  ∧ (∃ v, parse_db_range "70.5 - 75 dB(A)" = Ok v ∧ v == 72.75)
  ∧ (∃ v, parse_db_range "< 40 dB(A)" = Ok v ∧ v == 37.5).
Proof.
  split; [|split; [|split; [|split; [|split]]]].
  - intros. by apply StrFacts.parse_range.
  - intros lo hi.
    apply StrFacts.parse_range;
      auto using StrFacts.dec_numeric, StrFacts.dec_nonempty, StrFacts.float_dec.
  - apply StrFacts.parse_less_than.
  - eexists. split; [vm_compute; reflexivity | reflexivity].
  - eexists. split; [vm_compute; reflexivity | reflexivity].
  - eexists. split; [vm_compute; reflexivity | reflexivity].
Qed.

(** ** The radius query and the accumulated index set *)

Section Counting.

Context (O : IndexOrder).

Lemma elem_of_leaf_order pts (i : nat) :
  i ∈ leaf_order O pts ↔ (i < length pts)%nat.
Proof.
  rewrite (leaf_order_perm O pts), elem_of_seq. lia.
Qed.

Lemma elem_of_query_ball_point pts x r (i : nat) :
  i ∈ query_ball_point (cKDTree_build O pts) x r
  ↔ ∃ p, pts !! i = Some p ∧ within r x p = true.
Proof.
  unfold query_ball_point, near. cbn [kd_data kd_order cKDTree_build].
  rewrite list_elem_of_filter, elem_of_leaf_order. split.
  - intros [H _]. destruct (pts !! i) as [p|]; [eauto | done].
  - intros (p & Hp & Hw). rewrite Hp. split; [done|].
    by apply lookup_lt_Some in Hp.
Qed.

Lemma elem_of_nearby (f : Point → list nat) coords (S0 : gset nat) (i : nat) :
  i ∈ foldl (λ nearby coord, nearby ∪ list_to_set (f coord)) S0 coords
  ↔ i ∈ S0 ∨ ∃ c, c ∈ coords ∧ i ∈ f c.
Proof.
  revert S0. induction coords as [|c coords IH]; intros S0; simpl.
  - split; [auto|]. intros [?|(c & Hc & _)]; [done|]. by apply elem_of_nil in Hc.
  - rewrite IH, elem_of_union, elem_of_list_to_set. split.
    + intros [[?|?]|(c' & ? & ?)]; [auto| |].
      * right. exists c. split; [left|done].
      * right. exists c'. split; [by right|done].
    + intros [?|(c' & Hc' & ?)]; [auto|].
      apply elem_of_cons in Hc' as [->|?]; [auto|].
      right. eauto.
Qed.

Lemma index_near_spec pts coords r (i : nat) :
  index_near pts coords r i = true
  ↔ ∃ p c, pts !! i = Some p ∧ c ∈ coords ∧ within r c p = true.
Proof.
  unfold index_near. destruct (pts !! i) as [p|].
  2:{ split; [discriminate|]. by intros (p & c & ? & _). }
  rewrite existsb_exists. split.
  - intros (c & Hc & Hw). exists p, c. by rewrite list_elem_of_In.
  - intros (p' & c & [= <-] & Hc & Hw). exists c. by rewrite <- list_elem_of_In.
Qed.

Lemma nearby_size pts coords r :
  size (foldl (λ (nearby : gset nat) coord,
                 nearby ∪ list_to_set
                   (query_ball_point (cKDTree_build O pts) coord r))
          ∅ coords)
  = distinct_near pts coords r.
Proof.
  unfold distinct_near.
  rewrite <- (size_list_to_set (C := gset nat)).
  - f_equal. apply set_eq. intros i.
    rewrite elem_of_nearby, elem_of_list_to_set, list_elem_of_filter.
    rewrite index_near_spec, elem_of_seq. split.
    + intros [H|(c & Hc & Hi)]; [by apply not_elem_of_empty in H|].
      apply elem_of_query_ball_point in Hi as (p & Hp & Hw).
      split; [eauto|]. apply lookup_lt_Some in Hp. lia.
    + intros [(p & c & Hp & Hc & Hw) _]. right. exists c. split; [done|].
      apply elem_of_query_ball_point. eauto.
  - apply NoDup_filter, NoDup_seq.
Qed.

Lemma line_coords_empty g : is_empty g = true → line_coords g = [].
Proof.
  unfold is_empty, line_coords. destruct (shape g) as [cs|gs].
  - intros H%bool_decide_eq_true. by apply nil_length_inv.
  - intros H. assert (∀ acc, foldl (λ coords line, coords ++ line) acc gs = acc)
      as Hacc; [|apply Hacc].
    induction gs as [|cs gs IH]; intros acc; [done|].
    simpl in H. apply andb_true_iff in H as [Hcs Hgs].
    apply bool_decide_eq_true, nil_length_inv in Hcs as ->.
    simpl. rewrite app_nil_r. by apply IH.
Qed.

Lemma distinct_near_no_coords pts r : distinct_near pts [] r = 0%nat.
Proof.
  unfold distinct_near. induction (seq 0 (length pts)) as [|i l IH]; [done|].
  rewrite filter_cons_False; [done|].
  unfold index_near. by destruct (pts !! i).
Qed.

Lemma count_points_near_line_distinct geom pts points_array r :
  count_points_near_line geom (cKDTree_build O pts) points_array r
  = distinct_near pts (line_coords geom) r.
Proof.
  unfold count_points_near_line.
  destruct (is_empty geom) eqn:He.
  - by rewrite (line_coords_empty _ He), distinct_near_no_coords.
  - case_bool_decide as Hl.
    + apply nil_length_inv in Hl. by rewrite Hl, distinct_near_no_coords.
    + apply nearby_size.
Qed.

End Counting.

(** ** Nearest-neighbour query *)

Lemma nearest_from_inv x data :
  ∀ pre best, nearest_inv x pre best →
    nearest_inv x (pre ++ data) (nearest_from x data (length pre) best).
Proof.
  induction data as [|p data IH]; intros pre best Hinv; simpl.
  - by rewrite app_nil_r.
  - replace (pre ++ p :: data) with ((pre ++ [p]) ++ data)
      by (by rewrite <- app_assoc).
    replace (S (length pre)) with (length (pre ++ [p]))
      by (rewrite length_app; simpl; lia).
    apply IH. destruct best as [[bd bi]|]; simpl in *.
    + destruct Hinv as (bp & Hbp & -> & Hmin).
      destruct (Qlt_le_dec (dist2 p x) (dist2 bp x)) as [Hlt|Hle]; simpl.
      * exists p. split; [by rewrite lookup_app_r, Nat.sub_diag|].
        split; [done|]. intros j q Hq.
        apply lookup_app_Some in Hq as [Hq|[_ Hq]].
        -- apply Qlt_le_weak. eapply Qlt_le_trans; [exact Hlt|]. by eapply Hmin.
        -- apply list_lookup_singleton_Some in Hq as [_ <-]. apply Qle_refl.
      * exists bp. split; [by apply lookup_app_l_Some|].
        split; [done|]. intros j q Hq.
        apply lookup_app_Some in Hq as [Hq|[_ Hq]]; [by eapply Hmin|].
        by apply list_lookup_singleton_Some in Hq as [_ <-].
    + subst pre. exists p. split; [done|]. split; [done|].
      intros j q Hq. apply list_lookup_singleton_Some in Hq as [_ <-].
      apply Qle_refl.
Qed.

Lemma query_spec O data x :
  data ≠ [] →
  ∃ d k p, query (cKDTree_build O data) x = Some (d, k)
           ∧ data !! k = Some p ∧ d = dist2 p x
           ∧ ∀ j q, data !! j = Some q → d <= dist2 q x.
Proof.
  intros Hne. unfold query. cbn [kd_data cKDTree_build].
  pose proof (nearest_from_inv x data [] None eq_refl) as H.
  simpl in H. destruct (nearest_from x data 0 None) as [[d k]|]; simpl in H.
  - destruct H as (p & ? & ? & ?). by exists d, k, p.
  - done.
Qed.

(** ** The matching loop fills the arrays segment by segment *)

Lemma centroids_of_located (noise_gdf : list NoiseRow) :
  located noise_gdf →
  centroids_of noise_gdf = Ok ((λ r, centroid (noise_geometry r)) <$> noise_gdf).
Proof.
  unfold located. induction noise_gdf as [|row rest IH]; [done|].
  intros [Hrow Hrest]%Forall_cons. cbn [centroids_of]. unfold centroid_xy.
  rewrite Hrow. cbn [mbind result_bind]. by rewrite IH.
Qed.

Lemma centroids_of_empty (noise_gdf : list NoiseRow) :
  ¬ located noise_gdf → centroids_of noise_gdf = Raise ShapelyError.
Proof.
  unfold located. induction noise_gdf as [|row rest IH].
  - intros H. destruct H. constructor.
  - intros H. cbn [centroids_of]. unfold centroid_xy.
    destruct (is_empty (noise_geometry row)) eqn:Hrow; [done|].
    cbn [mbind result_bind]. rewrite IH; [done|].
    intros Hrest. apply H. by constructor.
Qed.

Section Loop.

Context (O : IndexOrder).
Context (noise_gdf : list NoiseRow).
Context (tree_points cleaning_points poi_points : list Point).

Local Abbreviation buffer_deg := (BUFFER_METERS / 111000).
Local Abbreviation noise_centroids :=
  ((λ r, centroid (noise_geometry r)) <$> noise_gdf).
Local Abbreviation body :=
  (edge_body O noise_gdf tree_points cleaning_points poi_points).

Lemma fill_slot {A B} (f : A → B) pre e (d : B) n :
  <[length pre := f e]> ((f <$> pre) ++ replicate (S n) d)
  = (f <$> (pre ++ [e])) ++ replicate n d.
Proof.
  rewrite insert_app_r_alt by (rewrite length_fmap; lia).
  rewrite length_fmap, Nat.sub_diag, fmap_app, <- app_assoc. done.
Qed.

Lemma keep_slot {A B} (f : A → B) pre e (d : B) n :
  f e = d →
  (f <$> pre) ++ replicate (S n) d = (f <$> (pre ++ [e])) ++ replicate n d.
Proof. intros <-. rewrite fmap_app, <- app_assoc. done. Qed.

Lemma count_with_slot points pre geom edge n :
  geometry edge = Some geom → is_empty geom = false →
  count_with (kdtree_of O points) points geom buffer_deg (length pre)
    ((segment_count points <$> pre) ++ replicate (S n) 0%nat)
  = (segment_count points <$> (pre ++ [edge])) ++ replicate n 0%nat.
Proof.
  intros Hg He. unfold count_with, kdtree_of.
  assert (segment_count points edge
          = distinct_near points (line_coords geom) buffer_deg) as Hsc
    by (unfold segment_count; by rewrite Hg, He).
  destruct (0 <? length points)%nat eqn:Hlen.
  - rewrite count_points_near_line_distinct, <- Hsc. apply fill_slot.
  - apply keep_slot. rewrite Hsc.
    apply Nat.ltb_ge in Hlen. by destruct points; [|simpl in Hlen; lia].
Qed.

Lemma segment_skipped edge :
  (geometry edge = None ∨ ∃ g, geometry edge = Some g ∧ is_empty g = true) →
  segment_noise noise_gdf edge = 0.5
  ∧ ∀ points, segment_count points edge = 0%nat.
Proof.
  unfold segment_noise, matched_db, segment_count.
  intros [->|(g & -> & ->)]; done.
Qed.

Lemma score_loop_spec es :
  ∀ pre st,
    noise_scores st
      = (segment_noise noise_gdf <$> pre) ++ replicate (length es) 0.5 →
    tree_counts st
      = (segment_count tree_points <$> pre) ++ replicate (length es) 0%nat →
    cleaning_counts st
      = (segment_count cleaning_points <$> pre) ++ replicate (length es) 0%nat →
    poi_counts st
      = (segment_count poi_points <$> pre) ++ replicate (length es) 0%nat →
    score_loop body es (length pre) st
    = Ok {| noise_scores := segment_noise noise_gdf <$> (pre ++ es);
            tree_counts := segment_count tree_points <$> (pre ++ es);
            cleaning_counts := segment_count cleaning_points <$> (pre ++ es);
            poi_counts := segment_count poi_points <$> (pre ++ es) |}.
Proof.
  induction es as [|e es IH]; intros pre [ns tc cc pc]; simpl;
    intros Hns Htc Hcc Hpc; subst.
  - by rewrite !app_nil_r.
  - assert (∃ st', body (length pre) e
              {| noise_scores :=
                   (segment_noise noise_gdf <$> pre) ++ 0.5 :: replicate (length es) 0.5;
                 tree_counts :=
                   (segment_count tree_points <$> pre) ++ 0%nat :: replicate (length es) 0%nat;
                 cleaning_counts :=
                   (segment_count cleaning_points <$> pre) ++ 0%nat :: replicate (length es) 0%nat;
                 poi_counts :=
                   (segment_count poi_points <$> pre) ++ 0%nat :: replicate (length es) 0%nat |}
              = Ok st'
            ∧ noise_scores st'
              = (segment_noise noise_gdf <$> (pre ++ [e])) ++ replicate (length es) 0.5
            ∧ tree_counts st'
              = (segment_count tree_points <$> (pre ++ [e])) ++ replicate (length es) 0%nat
            ∧ cleaning_counts st'
              = (segment_count cleaning_points <$> (pre ++ [e])) ++ replicate (length es) 0%nat
            ∧ poi_counts st'
              = (segment_count poi_points <$> (pre ++ [e])) ++ replicate (length es) 0%nat)
      as (st' & -> & H1 & H2 & H3 & H4).
    { unfold body, score_edge.
      destruct (geometry e) as [geom|] eqn:Hg.
      2:{ destruct (segment_skipped e) as [Hn Hc]; [by left|].
          eexists; split; [done|]. cbn.
          repeat split; by apply (keep_slot _ pre e). }
      destruct (is_empty geom) eqn:He.
      { destruct (segment_skipped e) as [Hn Hc]; [right; eauto|].
        eexists; split; [done|]. cbn.
        repeat split; by apply (keep_slot _ pre e). }
      cbn [noise_scores tree_counts cleaning_counts poi_counts].
      assert (∃ ns, match query (cKDTree_build O noise_centroids) (centroid geom) with
                | Some (d2, nearest_idx) =>
                    if Qlt_le_dec d2 (0.001 * 0.001)
                    then db ← Str.getitem (noise_db <$> noise_gdf) nearest_idx;
                         Ok (<[length pre := noise_formula db]>
                               ((segment_noise noise_gdf <$> pre)
                                  ++ 0.5 :: replicate (length es) 0.5))
                    else Ok ((segment_noise noise_gdf <$> pre)
                               ++ 0.5 :: replicate (length es) 0.5)
                | None => Ok ((segment_noise noise_gdf <$> pre)
                                ++ 0.5 :: replicate (length es) 0.5)
                end = Ok ns
              ∧ ns = (segment_noise noise_gdf <$> (pre ++ [e]))
                     ++ replicate (length es) 0.5) as (ns & -> & ->).
      { assert (segment_noise noise_gdf e
                = match query (cKDTree_build O noise_centroids) (centroid geom) with
                  | Some (d2, idx) =>
                      if Qlt_le_dec d2 (0.001 * 0.001)
                      then match noise_db <$> noise_gdf !! idx with
                           | Some db => noise_formula db
                           | None => 0.5
                           end
                      else 0.5
                  | None => 0.5
                  end) as Hsn.
        { unfold segment_noise, matched_db, query. rewrite Hg, He.
          cbn [kd_data cKDTree_build]. fold noise_centroids.
          destruct (nearest_from _ _ _ _) as [[d2 idx]|]; [|done].
          by destruct (Qlt_le_dec _ _). }
        pose proof (nearest_from_inv (centroid geom) noise_centroids [] None eq_refl)
          as Hinv. simpl in Hinv.
        unfold query in *. cbn [kd_data cKDTree_build] in *.
        destruct (nearest_from _ _ _ _) as [[d2 idx]|].
        2:{ eexists; split; [done|]. by apply (keep_slot _ pre e). }
        destruct (Qlt_le_dec _ _).
        2:{ eexists; split; [done|]. by apply (keep_slot _ pre e). }
        destruct Hinv as (p & Hp & _).
        unfold noise_centroids in Hp. rewrite list_lookup_fmap in Hp.
        unfold Str.getitem. rewrite list_lookup_fmap in *.
        destruct (noise_gdf !! idx) as [row|]; [|done]. cbn in *.
        eexists; split; [done|]. rewrite <- Hsn.
        apply (fill_slot (segment_noise noise_gdf) pre e 0.5). }
      eexists; split; [done|]. cbn.
      split; [done|]. repeat split; by apply count_with_slot. }
    cbn [mbind result_bind].
    replace (S (length pre)) with (length (pre ++ [e]))
      by (rewrite length_app; simpl; lia).
    rewrite (IH (pre ++ [e]) st' H1 H2 H3 H4).
    by rewrite <- !app_assoc.
Qed.

Lemma cKDTree_new_nonempty (pts : list Point) :
  pts ≠ [] → cKDTree_new O pts = Ok (cKDTree_build O pts).
Proof. by destruct pts. Qed.

Lemma index_of_kdtree (pts : list Point) :
  index_of O pts = Ok (kdtree_of O pts).
Proof.
  unfold index_of, kdtree_of. destruct pts; [done|]. done.
Qed.

Lemma match_edges_spec edges :
  noise_gdf ≠ [] → located noise_gdf →
  match_edges O edges noise_gdf tree_points cleaning_points poi_points
  = Ok {| noise_scores := segment_noise noise_gdf <$> rows edges;
          tree_counts := segment_count tree_points <$> rows edges;
          cleaning_counts := segment_count cleaning_points <$> rows edges;
          poi_counts := segment_count poi_points <$> rows edges |}.
Proof.
  intros Hne Hloc. unfold match_edges. rewrite !index_of_kdtree.
  cbn [mbind result_bind]. rewrite centroids_of_located by done.
  cbn [mbind result_bind].
  rewrite cKDTree_new_nonempty by (by destruct noise_gdf).
  cbn [mbind result_bind].
  apply (score_loop_spec (rows edges) []); done.
Qed.

Lemma match_edges_empty_centroid edges :
  ¬ located noise_gdf →
  match_edges O edges noise_gdf tree_points cleaning_points poi_points
  = Raise ShapelyError.
Proof.
  intros Hloc. unfold match_edges. rewrite !index_of_kdtree.
  cbn [mbind result_bind]. by rewrite centroids_of_empty.
Qed.

End Loop.

Lemma match_edges_no_noise O edges tree_points cleaning_points poi_points :
  match_edges O edges [] tree_points cleaning_points poi_points
  = Raise ValueError.
Proof. unfold match_edges. by rewrite !index_of_kdtree. Qed.

(** ** Arithmetic of the score formulas *)

(** [lra] does not look under the inverse of a constant. *)
Ltac const_inverses :=
  unfold Qdiv in *;
  repeat match goal with
    | |- context [Qinv (Qmake ?n ?d)] =>
        let v := eval vm_compute in (Qinv (Qmake n d)) in
        change (Qinv (Qmake n d)) with v
    | H : context [Qinv (Qmake ?n ?d)] |- _ =>
        let v := eval vm_compute in (Qinv (Qmake n d)) in
        change (Qinv (Qmake n d)) with v in H
    end.

Ltac qlra := const_inverses; lra.

Ltac compare_cases E :=
  first [apply Qeq_alt in E | apply Qlt_alt in E | apply Qgt_alt in E]; lra.

Lemma py_max_Qmax a b : py_max a b = Qmax a b.
Proof.
  unfold py_max, Qmax, GenericMinMax.gmax.
  destruct (Qlt_le_dec a b) as [H|H]; destruct (Qcompare a b) eqn:E;
    try done; compare_cases E.
Qed.

Lemma py_min_Qmin a b : py_min a b = Qmin a b.
Proof.
  unfold py_min, Qmin, GenericMinMax.gmin.
  destruct (Qlt_le_dec b a) as [H|H]; destruct (Qcompare a b) eqn:E;
    try done; compare_cases E.
Qed.

Lemma noise_formula_clamp db :
  noise_formula db = Qmax 0 (Qmin 1 (1 - (db - 37.5) / 40)).
Proof. unfold noise_formula. by rewrite py_max_Qmax, py_min_Qmin. Qed.

Ltac split_minmax :=
  repeat match goal with
    | |- context [Qmin ?a ?b] =>
        let H := fresh in
        destruct (Q.min_spec a b) as [[? H]|[? H]];
        revert H; generalize (Qmin a b); intros ? H
    | |- context [Qmax ?a ?b] =>
        let H := fresh in
        destruct (Q.max_spec a b) as [[? H]|[? H]];
        revert H; generalize (Qmax a b); intros ? H
    end.

Lemma noise_formula_bounds db : 0 <= noise_formula db <= 1.
Proof. rewrite noise_formula_clamp. split; split_minmax; qlra. Qed.

Lemma noise_formula_quiet db : db <= 37.5 → noise_formula db == 1.
Proof. intros H. rewrite noise_formula_clamp. split_minmax; qlra. Qed.

Lemma noise_formula_loud db : 77.5 <= db → noise_formula db == 0.
Proof. intros H. rewrite noise_formula_clamp. split_minmax; qlra. Qed.

Lemma noise_formula_linear db :
  37.5 <= db <= 77.5 → noise_formula db == 1 - (db - 37.5) / 40.
Proof. intros [H1 H2]. rewrite noise_formula_clamp. split_minmax; qlra. Qed.

Lemma QofN_nonneg n : 0 <= QofN n.
Proof.
  unfold QofN. change 0 with (inject_Z 0). rewrite <- Zle_Qle. lia.
Qed.

Lemma clean_formula_bounds c : 0 <= clean_formula c <= 1.
Proof.
  unfold clean_formula. pose proof (QofN_nonneg c).
  destruct (c =? 0)%nat; [lra|]. split; split_minmax; qlra.
Qed.

Lemma clean_formula_floor c : (4 <= c)%nat → clean_formula c = 0.
Proof.
  intros Hc. unfold clean_formula.
  destruct (Nat.eqb_spec c 0) as [->|_]; [lia|].
  unfold Qmax, GenericMinMax.gmax.
  assert (1 - QofN c * 0.3 <= 0) as Hle.
  { assert (4 <= QofN c) as H4.
    { unfold QofN. change 4 with (inject_Z 4). rewrite <- Zle_Qle. lia. }
    lra. }
  destruct (Qcompare 0 (1 - QofN c * 0.3)) eqn:E; [done| |done].
  apply Qlt_alt in E. lra.
Qed.

(** ** Rounding *)

Lemma rint_comp x y : x == y → rint x = rint y.
Proof.
  intros H. unfold rint. rewrite <- (Qfloor_comp _ _ H).
  assert (x - inject_Z (Qfloor x) == y - inject_Z (Qfloor x)) as H' by lra.
  by rewrite (Qcompare_comp _ _ H' _ _ (Qeq_refl (1 # 2))).
Qed.

Lemma np_round3_comp x y : x == y → np_round3 x = np_round3 y.
Proof.
  intros H. unfold np_round3. f_equal. f_equal. apply rint_comp. lra.
Qed.

Lemma rint_lower x (n : Z) : inject_Z n <= x → (n <= rint x)%Z.
Proof.
  intros H. assert (n <= Qfloor x)%Z as Hf.
  { rewrite <- (Qfloor_Z n). by apply Qfloor_resp_le. }
  unfold rint. destruct (Qcompare _ _); [destruct (Z.even _)| |]; lia.
Qed.

Lemma rint_upper x (n : Z) : x <= inject_Z n → (rint x <= n)%Z.
Proof.
  intros H. pose proof (Qfloor_le x) as Hfl.
  assert (Qfloor x <= n)%Z as Hf.
  { rewrite Zle_Qle. by eapply Qle_trans. }
  assert (inject_Z (Qfloor x) < x → (Qfloor x + 1 <= n)%Z) as Hstrict.
  { intros Hlt. assert (Qfloor x < n)%Z; [|lia].
    rewrite Zlt_Qlt. by eapply Qlt_le_trans. }
  unfold rint. destruct (Qcompare _ _) eqn:E.
  - destruct (Z.even _); [done|]. apply Hstrict.
    apply Qeq_alt in E. lra.
  - done.
  - apply Hstrict. apply Qgt_alt in E. lra.
Qed.

Lemma np_round3_bounds x : 0 <= x <= 1 → 0 <= np_round3 x <= 1.
Proof.
  intros [H0 H1]. unfold np_round3.
  assert (0 <= rint (x * 1000))%Z as Hl
    by (apply rint_lower; change (inject_Z 0) with 0; lra).
  assert (rint (x * 1000) <= 1000)%Z as Hu
    by (apply rint_upper; change (inject_Z 1000) with 1000; lra).
  rewrite Zle_Qle in Hl, Hu.
  change (inject_Z 0) with 0 in Hl. change (inject_Z 1000) with 1000 in Hu.
  split; qlra.
Qed.

(** ** Percentile-cap normalisation *)

Lemma foldr_max_zero (x : nat) (a : list nat) :
  foldr Nat.max x a = 0%nat ↔ x = 0%nat ∧ forallb (λ c, (c =? 0)%nat) a = true.
Proof.
  induction a as [|y a [IH1 IH2]]; simpl; [by split; [|intros []]|].
  rewrite andb_true_iff, Nat.eqb_eq. split.
  - intros H. destruct IH1 as [? ?]; [lia|]. repeat split; [done|lia|done].
  - intros (Hx & Hy & Ha). rewrite IH2 by done. lia.
Qed.

Lemma np_max_positive (counts : list nat) :
  counts ≠ [] →
  ∃ m, np_max counts = Ok m
       ∧ (0 <? m)%nat = negb (forallb (λ c, (c =? 0)%nat) counts).
Proof.
  destruct counts as [|x a]; [done|]. intros _. eexists. split; [done|].
  simpl. pose proof (foldr_max_zero x a) as H.
  destruct (Nat.ltb_spec 0 (foldr Nat.max x a)) as [Hlt|Hge].
  - symmetry. apply negb_true_iff, andb_false_iff.
    destruct (Nat.eqb_spec x 0) as [->|]; [right|by left].
    destruct (forallb _ a); [|done]. lia.
  - symmetry. apply negb_false_iff, andb_true_iff.
    rewrite Nat.eqb_eq. apply H. lia.
Qed.

Lemma normalize_counts_spec (counts : list nat) :
  counts ≠ [] →
  normalize_counts counts (replicate (length counts) 0) = Ok (normalized counts).
Proof.
  intros Hne. unfold normalize_counts, normalized.
  destruct (np_max_positive counts Hne) as (m & -> & Hm).
  cbn [mbind result_bind]. rewrite Hm.
  destruct (forallb _ counts); simpl; [done|].
  unfold percentile_cap. by rewrite py_max_Qmax.
Qed.

Lemma normalize_counts_empty scores : normalize_counts [] scores = Raise ValueError.
Proof. done. Qed.

Lemma normalized_length counts : length (normalized counts) = length counts.
Proof.
  unfold normalized. destruct (forallb _ counts).
  - apply length_replicate.
  - apply length_fmap.
Qed.

Lemma normalized_lookup counts (i c : nat) :
  counts !! i = Some c →
  normalized counts !! i
  = Some (if forallb (λ c, (c =? 0)%nat) counts then 0
          else Qmin (QofN c / Qmax (np_percentile
                                      (filter (λ c, (0 < c)%nat) counts) 90) 1) 1).
Proof.
  intros Hc. unfold normalized. destruct (forallb _ counts).
  - apply lookup_replicate_2. by apply lookup_lt_Some in Hc.
  - by rewrite list_lookup_fmap, Hc.
Qed.

Lemma capped_ratio_bounds (c : nat) (p : Q) :
  0 <= Qmin (QofN c / Qmax p 1) 1 <= 1.
Proof.
  pose proof (QofN_nonneg c) as Hc. pose proof (Q.le_max_r p 1) as Hcap.
  assert (0 <= QofN c / Qmax p 1) as Hq.
  { apply Qle_shift_div_l; lra. }
  split; split_minmax; lra.
Qed.

Lemma capped_ratio_zero (p : Q) : Qmin (QofN 0 / Qmax p 1) 1 == 0.
Proof.
  assert (QofN 0 / Qmax p 1 == 0) as H
    by (change (QofN 0) with 0; unfold Qdiv; apply Qmult_0_l).
  split_minmax; lra.
Qed.

Lemma capped_ratio_cap (c : nat) (p : Q) :
  QofN c == Qmax p 1 → Qmin (QofN c / Qmax p 1) 1 == 1.
Proof.
  intros H. pose proof (Q.le_max_r p 1) as Hcap.
  assert (QofN c / Qmax p 1 == 1) as H1.
  { unfold Qdiv. transitivity (Qmax p 1 * / Qmax p 1).
    - by apply Qmult_comp.
    - apply Qmult_inv_r. lra. }
  split_minmax; lra.
Qed.

Lemma normalized_bounds counts (i : nat) v :
  normalized counts !! i = Some v → 0 <= v <= 1.
Proof.
  intros Hv. destruct (counts !! i) as [c|] eqn:Hc.
  - rewrite (normalized_lookup _ _ _ Hc) in Hv. injection Hv as <-.
    destruct (forallb _ counts); [lra | apply capped_ratio_bounds].
  - apply lookup_lt_Some in Hv. rewrite normalized_length in Hv.
    apply lookup_ge_None in Hc. lia.
Qed.

(** ** The scoring pass in terms of the reference readings *)

Section Pass.

Context (O : IndexOrder).
Context (edges : GeoDataFrame) (noise_gdf : list NoiseRow).
Context (tree_points cleaning_points poi_points : list Point).

Lemma score_arrays_spec :
  noise_gdf ≠ [] → located noise_gdf → rows edges ≠ [] →
  score_arrays O edges noise_gdf tree_points cleaning_points poi_points
  = Ok (reference_scores edges noise_gdf tree_points cleaning_points poi_points).
Proof.
  intros Hn Hloc He. unfold score_arrays. rewrite match_edges_spec by done.
  cbn [mbind result_bind]. unfold normalize.
  cbn [tree_counts cleaning_counts poi_counts noise_scores].
  assert (∀ points, segment_count points <$> rows edges ≠ []) as Hne.
  { intros points H. apply fmap_nil_inv in H. done. }
  pose proof (normalize_counts_spec (segment_count tree_points <$> rows edges) (Hne _)) as Ht.
  pose proof (normalize_counts_spec (segment_count poi_points <$> rows edges) (Hne _)) as Hp.
  rewrite !length_fmap in Ht, Hp. rewrite Ht, Hp. done.
Qed.

Lemma score_arrays_empty_centroid :
  ¬ located noise_gdf →
  score_arrays O edges noise_gdf tree_points cleaning_points poi_points
  = Raise ShapelyError.
Proof. intros H. unfold score_arrays. by rewrite match_edges_empty_centroid. Qed.

Lemma score_arrays_no_edges :
  rows edges = [] → located noise_gdf →
  score_arrays O edges noise_gdf tree_points cleaning_points poi_points
  = Raise ValueError.
Proof.
  intros He Hloc. unfold score_arrays. destruct noise_gdf as [|r rs] eqn:En.
  - by rewrite match_edges_no_noise.
  - rewrite match_edges_spec by done. rewrite He. done.
Qed.

Lemma score_arrays_no_noise :
  noise_gdf = [] →
  score_arrays O edges noise_gdf tree_points cleaning_points poi_points
  = Raise ValueError.
Proof. intros ->. unfold score_arrays. by rewrite match_edges_no_noise. Qed.

Lemma located_dec : Decision (located noise_gdf).
Proof. unfold located. apply _. Qed.

Lemma score_arrays_located s :
  score_arrays O edges noise_gdf tree_points cleaning_points poi_points = Ok s →
  located noise_gdf.
Proof.
  intros H. destruct located_dec as [Hloc|Hloc]; [done|].
  by rewrite score_arrays_empty_centroid in H.
Qed.

Lemma score_arrays_inv s :
  score_arrays O edges noise_gdf tree_points cleaning_points poi_points = Ok s →
  noise_gdf ≠ [] ∧ rows edges ≠ []
  ∧ s = reference_scores edges noise_gdf tree_points cleaning_points poi_points.
Proof.
  intros H. pose proof (score_arrays_located s H) as Hloc.
  destruct (decide (noise_gdf = [])) as [Hn|Hn].
  { by rewrite score_arrays_no_noise in H. }
  destruct (decide (rows edges = [])) as [He|He].
  { by rewrite score_arrays_no_edges in H. }
  rewrite score_arrays_spec in H by done. by injection H as <-.
Qed.

Lemma score_streets_located out :
  score_streets O edges noise_gdf tree_points cleaning_points poi_points = Ok out →
  located noise_gdf.
Proof.
  unfold score_streets. intros H.
  destruct (score_arrays _ _ _ _ _ _) as [s|e] eqn:Hs; [|done].
  by eapply score_arrays_located.
Qed.

Lemma score_streets_inv out :
  score_streets O edges noise_gdf tree_points cleaning_points poi_points = Ok out →
  noise_gdf ≠ [] ∧ rows edges ≠ []
  ∧ out = assign_scores edges
            (reference_scores edges noise_gdf tree_points cleaning_points poi_points).
Proof.
  unfold score_streets. intros H.
  destruct (score_arrays _ _ _ _ _ _) as [s|e] eqn:Hs; [|done].
  apply score_arrays_inv in Hs as (? & ? & ->). cbn in H. by injection H as <-.
Qed.

Lemma score_streets_total :
  noise_gdf ≠ [] → located noise_gdf → rows edges ≠ [] →
  score_streets O edges noise_gdf tree_points cleaning_points poi_points
  = Ok (assign_scores edges
          (reference_scores edges noise_gdf tree_points cleaning_points poi_points)).
Proof. intros Hn Hloc He. unfold score_streets. by rewrite score_arrays_spec. Qed.

End Pass.

Lemma assign_scores_rows edges s : rows (assign_scores edges s) = rows edges.
Proof. done. Qed.

Lemma assign_scores_columns edges s (i : nat) :
  score_at (assign_scores edges s) "noise_score" i = np_round3 <$> noise s !! i
  ∧ score_at (assign_scores edges s) "green_score" i = np_round3 <$> green s !! i
  ∧ score_at (assign_scores edges s) "clean_score" i = np_round3 <$> clean s !! i
  ∧ score_at (assign_scores edges s) "cultural_score" i
    = np_round3 <$> cultural s !! i.
Proof.
  unfold score_at, assign_scores, setitem. cbn [columns].
  repeat split; simplify_map_eq; by rewrite list_lookup_fmap.
Qed.

(** ** Per-segment facts *)

Lemma segment_noise_bounds noise_gdf edge : 0 <= segment_noise noise_gdf edge <= 1.
Proof.
  unfold segment_noise. destruct (matched_db noise_gdf edge).
  - apply noise_formula_bounds.
  - lra.
Qed.

Lemma forallb_zero_Forall (counts : list nat) :
  forallb (λ c, (c =? 0)%nat) counts = true ↔ Forall (λ c, c = 0%nat) counts.
Proof.
  rewrite forallb_forall, Forall_forall. split.
  - intros H c Hc. apply Nat.eqb_eq, H. by apply list_elem_of_In.
  - intros H c Hc. apply Nat.eqb_eq, H. by apply list_elem_of_In.
Qed.

Lemma forallb_zero_Exists (counts : list nat) :
  forallb (λ c, (c =? 0)%nat) counts = false ↔ Exists (λ c, (0 < c)%nat) counts.
Proof.
  induction counts as [|c counts IH]; simpl.
  - split; [done|]. by intros H%Exists_nil.
  - rewrite Exists_cons, andb_false_iff, IH, Nat.eqb_neq.
    split; (intros [?|?]; [left; lia | by right]).
Qed.

Lemma normalized_cap_normalised counts (i c : nat) :
  counts !! i = Some c →
  ∃ v, normalized counts !! i = Some v ∧ cap_normalised counts c v.
Proof.
  intros Hc. rewrite (normalized_lookup _ _ _ Hc). eexists. split; [done|].
  unfold cap_normalised. cbv zeta.
  destruct (forallb _ counts) eqn:Hall.
  - apply forallb_zero_Forall in Hall as HF.
    assert (¬ Exists (λ c, (0 < c)%nat) counts) as HE.
    { intros HE%forallb_zero_Exists. congruence. }
    repeat split; try done; lra.
  - apply forallb_zero_Exists in Hall as HE.
    assert (¬ Forall (λ c, c = 0%nat) counts) as HF.
    { intros HF%forallb_zero_Forall. congruence. }
    repeat split; try done.
    + intros ->. apply capped_ratio_zero.
    + intros _. apply capped_ratio_cap.
    + apply capped_ratio_bounds.
    + apply capped_ratio_bounds.
Qed.

Lemma np_round3_clean (c : nat) : np_round3 (clean_formula c) == clean_formula c.
Proof.
  destruct (le_lt_dec 4 c) as [H|H].
  - rewrite clean_formula_floor by done. reflexivity.
  - do 4 (destruct c as [|c]; [vm_compute; reflexivity|]). lia.
Qed.

Lemma reference_lookups edges noise_gdf tree_points cleaning_points poi_points
    (i : nat) edge :
  rows edges !! i = Some edge →
  let s := reference_scores edges noise_gdf tree_points cleaning_points poi_points in
  noise s !! i = Some (segment_noise noise_gdf edge)
  ∧ (∃ g, green s !! i = Some g
          ∧ cap_normalised (segment_count tree_points <$> rows edges)
              (segment_count tree_points edge) g)
  ∧ clean s !! i = Some (clean_formula (segment_count cleaning_points edge))
  ∧ (∃ k, cultural s !! i = Some k
          ∧ cap_normalised (segment_count poi_points <$> rows edges)
              (segment_count poi_points edge) k).
Proof.
  intros He. cbn.
  assert (∀ points, (segment_count points <$> rows edges) !! i
                    = Some (segment_count points edge)) as Hc
    by (intros; by rewrite list_lookup_fmap, He).
  rewrite !list_lookup_fmap, He. cbn.
  repeat split; auto using normalized_cap_normalised.
Qed.

(** ** The claims about the scoring pass *)

(** C1. Every score of every segment in the collection returned by
    [score_streets] (the columns noise_score, green_score, clean_score
    and cultural_score) lies in [0, 1], whatever the geometries, point
    clouds and decibel values are. *)
Theorem scores_in_unit_interval O edges noise_gdf tree_points cleaning_points
    poi_points out :
  score_streets O edges noise_gdf tree_points cleaning_points poi_points = Ok out →
  rows out = rows edges
  ∧ ∀ (i : nat) col,
      (i < length (rows out))%nat →
      col ∈ ["noise_score"; "green_score"; "clean_score"; "cultural_score"]%string →
      ∃ v, score_at out col i = Some v ∧ 0 <= v <= 1.
Proof.
  intros (_ & _ & ->)%score_streets_inv. split; [done|].
  intros i col Hi Hcol. rewrite assign_scores_rows in Hi.
  destruct (lookup_lt_is_Some_2 _ _ Hi) as [edge He].
  destruct (reference_lookups edges noise_gdf tree_points cleaning_points
              poi_points i edge He) as (Hn & (g & Hg & Hgn) & Hc & (k & Hk & Hkn)).
  destruct (assign_scores_columns edges
              (reference_scores edges noise_gdf tree_points cleaning_points
                 poi_points) i) as (En & Eg & Ec & Ek).
  rewrite Hn in En. rewrite Hg in Eg. rewrite Hc in Ec. rewrite Hk in Ek.
  repeat (apply elem_of_cons in Hcol as [->|Hcol]);
    [| | | | by apply elem_of_nil in Hcol]; eexists; (split; [eassumption|]);
    apply np_round3_bounds.
  - apply segment_noise_bounds.
  - apply Hgn.
  - apply clean_formula_bounds.
  - apply Hkn.
Qed.

Lemma sample_run :
  score_streets sorted_order sample_edges sample_noise sample_trees [(0, 0)] []
  = Ok sample_scored.
Proof. vm_compute. reflexivity. Qed.

Lemma sample_arrays :
  score_arrays sorted_order sample_edges sample_noise sample_trees [(0, 0)] []
  = Ok (reference_scores sample_edges sample_noise sample_trees [(0, 0)] []).
Proof. vm_compute. reflexivity. Qed.

Lemma scores_in_unit_interval_witness :
  rows sample_scored = rows sample_edges
  ∧ ∀ (i : nat) col,
      (i < length (rows sample_scored))%nat →
      col ∈ ["noise_score"; "green_score"; "clean_score"; "cultural_score"]%string →
      ∃ v, score_at sample_scored col i = Some v ∧ 0 <= v <= 1.
Proof.
  exact (scores_in_unit_interval sorted_order sample_edges sample_noise
           sample_trees [(0, 0)] [] sample_scored sample_run).
Defined.

(** C2 (the code departs from the claim). [score_streets] raises on an
    empty segment collection, whatever the other inputs are, and on an
    empty noise collection, whatever the segments are: ValueError, from
    [tree_counts.max()] on a zero-size array and from [cKDTree] on an
    array without points.  It also raises when an observation has an
    empty geometry, whose centroid has no coordinates to read.  It returns
    on exactly the other inputs; an empty point cloud gets no index and
    leaves the counts as they are. *)
Theorem score_streets_raises O :
  (∀ cols noise_gdf tree_points cleaning_points poi_points,
      ∃ e, score_streets O {| rows := []; columns := cols |} noise_gdf tree_points
             cleaning_points poi_points = Raise e
           ∧ (located noise_gdf → e = ValueError))
  ∧ (∀ edges tree_points cleaning_points poi_points,
      score_streets O edges [] tree_points cleaning_points poi_points
      = Raise ValueError)
  ∧ (∀ edges noise_gdf tree_points cleaning_points poi_points,
      ¬ located noise_gdf →
      score_streets O edges noise_gdf tree_points cleaning_points poi_points
      = Raise ShapelyError)
  ∧ (∀ edges noise_gdf tree_points cleaning_points poi_points,
      (∃ out,
         score_streets O edges noise_gdf tree_points cleaning_points poi_points
         = Ok out)
      ↔ rows edges ≠ [] ∧ noise_gdf ≠ [] ∧ located noise_gdf)
  ∧ index_of O [] = Ok None
  ∧ (∀ geom buffer_deg i counts,
      count_with None [] geom buffer_deg i counts = counts).
Proof.
  split; [|split; [|split; [|split; [|split]]]]; intros; try done.
  - destruct (located_dec noise_gdf) as [Hloc|Hloc].
    + exists ValueError. split; [|done].
      unfold score_streets. by rewrite score_arrays_no_edges.
    + exists ShapelyError. split; [|done].
      unfold score_streets. by rewrite score_arrays_empty_centroid.
  - unfold score_streets. by rewrite score_arrays_no_noise.
  - unfold score_streets. by rewrite score_arrays_empty_centroid.
  - split.
    + intros [out Hout]. pose proof (score_streets_located _ _ _ _ _ _ _ Hout).
      apply score_streets_inv in Hout as (? & ? & _). done.
    + intros (? & ? & ?). eexists. by apply score_streets_total.
Qed.


(** C9. Two runs of [score_streets] on the same inputs give the same
    scored collection, whichever order the spatial indices list their
    points in; in particular no count depends on that order. *)
Theorem score_streets_deterministic O1 O2 :
  (∀ edges noise_gdf tree_points cleaning_points poi_points,
      score_streets O1 edges noise_gdf tree_points cleaning_points poi_points
      = score_streets O2 edges noise_gdf tree_points cleaning_points poi_points)
  ∧ (∀ geom points points_array r,
      count_points_near_line geom (cKDTree_build O1 points) points_array r
      = count_points_near_line geom (cKDTree_build O2 points) points_array r).
Proof.
  split.
  - intros edges noise_gdf tree_points cleaning_points poi_points.
    unfold score_streets.
    destruct (located_dec noise_gdf) as [Hloc|Hloc].
    2:{ by rewrite !score_arrays_empty_centroid. }
    destruct (decide (noise_gdf = [])) as [Hn|Hn].
    { by rewrite !score_arrays_no_noise. }
    destruct (decide (rows edges = [])) as [He|He].
    { by rewrite !score_arrays_no_edges. }
    by rewrite !score_arrays_spec.
  - intros. by rewrite !count_points_near_line_distinct.
Qed.

(** C4. Green and cultural scores are the percentile-cap normalisation of
    the tree and POI counts: 0 everywhere when no segment has a positive
    count; otherwise [min(count / cap, 1)] with [cap] the larger of 1 and
    the 90th percentile of the positive counts, so that a count of 0
    scores 0, a count equal to the cap scores 1, and no score exceeds 1.
    The exported columns hold these values rounded to three decimals. *)
Theorem green_cultural_normalisation O edges noise_gdf tree_points
    cleaning_points poi_points s (i : nat) edge :
  score_arrays O edges noise_gdf tree_points cleaning_points poi_points = Ok s →
  rows edges !! i = Some edge →
  ∃ m g k,
    match_edges O edges noise_gdf tree_points cleaning_points poi_points = Ok m
    ∧ tree_counts m !! i = Some (segment_count tree_points edge)
    ∧ poi_counts m !! i = Some (segment_count poi_points edge)
    ∧ green s !! i = Some g
    ∧ cap_normalised (tree_counts m) (segment_count tree_points edge) g
    ∧ cultural s !! i = Some k
    ∧ cap_normalised (poi_counts m) (segment_count poi_points edge) k
    ∧ ∀ out,
        score_streets O edges noise_gdf tree_points cleaning_points poi_points
        = Ok out →
        score_at out "green_score" i = Some (np_round3 g)
        ∧ score_at out "cultural_score" i = Some (np_round3 k).
Proof.
  intros Hs He. pose proof (score_arrays_located _ _ _ _ _ _ _ Hs) as Hloc.
  apply score_arrays_inv in Hs as (Hn & _ & ->).
  destruct (reference_lookups edges noise_gdf tree_points cleaning_points
              poi_points i edge He) as (_ & (g & Hg & Hgn) & _ & (k & Hk & Hkn)).
  eexists _, g, k. split; [by apply match_edges_spec|].
  cbn [tree_counts poi_counts]. rewrite !list_lookup_fmap, He.
  do 6 (split; [done|]).
  intros out (_ & _ & ->)%score_streets_inv.
  destruct (assign_scores_columns edges
              (reference_scores edges noise_gdf tree_points cleaning_points
                 poi_points) i) as (_ & Eg & _ & Ek).
  by rewrite Eg, Hg, Ek, Hk.
Qed.

Lemma green_cultural_normalisation_witness :
  ∃ m g k,
    match_edges sorted_order sample_edges sample_noise sample_trees [(0, 0)] []
    = Ok m
    ∧ tree_counts m !! 0%nat = Some 3%nat
    ∧ poi_counts m !! 0%nat = Some 0%nat
    ∧ green (reference_scores sample_edges sample_noise sample_trees [(0, 0)] [])
        !! 0%nat = Some g
    ∧ cap_normalised (tree_counts m) 3 g
    ∧ cultural (reference_scores sample_edges sample_noise sample_trees [(0, 0)] [])
        !! 0%nat = Some k
    ∧ cap_normalised (poi_counts m) 0 k
    ∧ ∀ out,
        score_streets sorted_order sample_edges sample_noise sample_trees
          [(0, 0)] [] = Ok out →
        score_at out "green_score" 0 = Some (np_round3 g)
        ∧ score_at out "cultural_score" 0 = Some (np_round3 k).
Proof.
  exact (green_cultural_normalisation sorted_order sample_edges sample_noise
           sample_trees [(0, 0)] [] _ 0%nat _ sample_arrays eq_refl).
Defined.

(** C5. A segment whose nearest noise observation lies closer than the
    threshold scores [clamp(1 - (db - 37.5) / 40, 0, 1)] for that
    observation's db: 1 at 37.5 dB and below, 0 at 77.5 dB and above, 0.5
    at 57.5 dB.  A segment with no observation within the threshold, or
    without geometry, keeps 0.5.  The exported column holds the value
    rounded to three decimals. *)
Theorem noise_score_clamp O edges noise_gdf tree_points cleaning_points
    poi_points s (i : nat) edge :
  score_arrays O edges noise_gdf tree_points cleaning_points poi_points = Ok s →
  rows edges !! i = Some edge →
  ∃ v, noise s !! i = Some v
    ∧ (∀ g, geometry edge = Some g → is_empty g = false →
         (∃ row,
             nearest_observation noise_gdf (centroid g) row
             ∧ dist2 (centroid (noise_geometry row)) (centroid g) < 0.001 * 0.001
             ∧ v = noise_formula (noise_db row)
             ∧ v == Qmax 0 (Qmin 1 (1 - (noise_db row - 37.5) / 40)))
         ∨ ((∀ row, row ∈ noise_gdf →
               0.001 * 0.001 <= dist2 (centroid (noise_geometry row)) (centroid g))
            ∧ v = 0.5))
    ∧ (no_geometry edge → v = 0.5)
    ∧ (∀ out,
         score_streets O edges noise_gdf tree_points cleaning_points poi_points
         = Ok out →
         score_at out "noise_score" i = Some (np_round3 v))
    ∧ noise_formula 37.5 == 1 ∧ noise_formula 77.5 == 0
    ∧ noise_formula 57.5 == 0.5
    ∧ (∀ db, db <= 37.5 → noise_formula db == 1)
    ∧ (∀ db, 77.5 <= db → noise_formula db == 0).
Proof.
  intros (Hn & _ & ->)%score_arrays_inv He.
  exists (segment_noise noise_gdf edge).
  split; [by cbn; rewrite list_lookup_fmap, He|].
  split; [|split; [|split]].
  - intros g Hg Hemp. unfold segment_noise, matched_db. rewrite Hg, Hemp.
    pose proof (nearest_from_inv (centroid g)
                  ((λ r, centroid (noise_geometry r)) <$> noise_gdf) [] None eq_refl)
      as Hinv. simpl in Hinv.
    destruct (nearest_from _ _ _ _) as [[d2 idx]|]; simpl in Hinv.
    2:{ by apply fmap_nil_inv in Hinv. }
    destruct Hinv as (p & Hp & -> & Hmin).
    rewrite list_lookup_fmap in Hp.
    destruct (noise_gdf !! idx) as [row|] eqn:Hrow; [|done].
    injection Hp as <-.
    destruct (Qlt_le_dec _ _) as [Hlt|Hge].
    + left. exists row. cbn. repeat split; try done.
      * by eapply list_elem_of_lookup_2.
      * intros row' [j Hj]%list_elem_of_lookup. apply (Hmin j).
        by rewrite list_lookup_fmap, Hj.
      * by rewrite noise_formula_clamp.
    + right. split; [|done].
      intros row' [j Hj]%list_elem_of_lookup.
      eapply Qle_trans; [exact Hge|]. apply (Hmin j).
      by rewrite list_lookup_fmap, Hj.
  - intros Hno. by apply segment_skipped.
  - intros out (_ & _ & ->)%score_streets_inv.
    destruct (assign_scores_columns edges
                (reference_scores edges noise_gdf tree_points cleaning_points
                   poi_points) i) as (En & _).
    rewrite En. cbn. by rewrite list_lookup_fmap, He.
  - repeat split; try (vm_compute; reflexivity).
    + apply noise_formula_quiet.
    + apply noise_formula_loud.
Qed.

Lemma noise_score_clamp_witness :
  ∃ v, noise (reference_scores sample_edges sample_noise sample_trees [(0, 0)] [])
         !! 0%nat = Some v
    ∧ (∀ g, Some sample_geometry = Some g → is_empty g = false →
         (∃ row,
             nearest_observation sample_noise (centroid g) row
             ∧ dist2 (centroid (noise_geometry row)) (centroid g) < 0.001 * 0.001
             ∧ v = noise_formula (noise_db row)
             ∧ v == Qmax 0 (Qmin 1 (1 - (noise_db row - 37.5) / 40)))
         ∨ ((∀ row, row ∈ sample_noise →
               0.001 * 0.001 <= dist2 (centroid (noise_geometry row)) (centroid g))
            ∧ v = 0.5))
    ∧ (no_geometry {| name := Some "Carrer A"; geometry := Some sample_geometry |}
       → v = 0.5)
    ∧ (∀ out,
         score_streets sorted_order sample_edges sample_noise sample_trees
           [(0, 0)] [] = Ok out →
         score_at out "noise_score" 0 = Some (np_round3 v))
    ∧ noise_formula 37.5 == 1 ∧ noise_formula 77.5 == 0
    ∧ noise_formula 57.5 == 0.5
    ∧ (∀ db, db <= 37.5 → noise_formula db == 1)
    ∧ (∀ db, 77.5 <= db → noise_formula db == 0).
Proof.
  exact (noise_score_clamp sorted_order sample_edges sample_noise sample_trees
           [(0, 0)] [] _ 0%nat _ sample_arrays eq_refl).
Defined.

(** C6. The clean score of a segment is 1 when no cleaning spot is counted
    for it and [max(0, 1 - count * 0.3)] otherwise: 0.7 for one spot and 0
    for four. *)
Theorem clean_score_penalty O edges noise_gdf tree_points cleaning_points
    poi_points out (i : nat) edge :
  score_streets O edges noise_gdf tree_points cleaning_points poi_points = Ok out →
  rows edges !! i = Some edge →
  ∃ m count v,
    match_edges O edges noise_gdf tree_points cleaning_points poi_points = Ok m
    ∧ cleaning_counts m !! i = Some count
    ∧ count = segment_count cleaning_points edge
    ∧ score_at out "clean_score" i = Some v
    ∧ (count = 0%nat → v == 1)
    ∧ (count ≠ 0%nat → v == Qmax 0 (1 - QofN count * 0.3))
    ∧ (count = 1%nat → v == 0.7)
    ∧ (count = 4%nat → v == 0).
Proof.
  intros Hs He. pose proof (score_streets_located _ _ _ _ _ _ _ Hs) as Hloc.
  apply score_streets_inv in Hs as (Hn & _ & ->).
  eexists _, (segment_count cleaning_points edge), _.
  split; [by apply match_edges_spec|].
  cbn [cleaning_counts]. rewrite list_lookup_fmap, He.
  split; [done|]. split; [done|].
  destruct (assign_scores_columns edges
              (reference_scores edges noise_gdf tree_points cleaning_points
                 poi_points) i) as (_ & _ & Ec & _).
  split. { rewrite Ec. cbn. by rewrite !list_lookup_fmap, He. }
  pose proof (np_round3_clean (segment_count cleaning_points edge)) as Hr.
  generalize dependent (segment_count cleaning_points edge). intros c Hr.
  repeat split; intros Hc; rewrite Hr; unfold clean_formula.
  - by rewrite Hc.
  - destruct (Nat.eqb_spec c 0); [done|reflexivity].
  - rewrite Hc. vm_compute. reflexivity.
  - rewrite Hc. vm_compute. reflexivity.
Qed.

Lemma clean_score_penalty_witness :
  ∃ m count v,
    match_edges sorted_order sample_edges sample_noise sample_trees [(0, 0)] []
    = Ok m
    ∧ cleaning_counts m !! 0%nat = Some count
    ∧ count = 1%nat
    ∧ score_at sample_scored "clean_score" 0 = Some v
    ∧ (count = 0%nat → v == 1)
    ∧ (count ≠ 0%nat → v == Qmax 0 (1 - QofN count * 0.3))
    ∧ (count = 1%nat → v == 0.7)
    ∧ (count = 4%nat → v == 0).
Proof.
  exact (clean_score_penalty sorted_order sample_edges sample_noise sample_trees
           [(0, 0)] [] sample_scored 0%nat _ sample_run eq_refl).
Defined.

(** C8. A segment whose geometry is missing or empty is passed over by the
    matching loop (the iteration changes no array), is still a row of the
    scored collection and carries the default scores: noise 0.5, green 0,
    clean 1, cultural 0. *)
Theorem empty_geometry_defaults O edges noise_gdf tree_points cleaning_points
    poi_points out (i : nat) edge :
  score_streets O edges noise_gdf tree_points cleaning_points poi_points = Ok out →
  rows edges !! i = Some edge →
  no_geometry edge →
  (∀ st, edge_body O noise_gdf tree_points cleaning_points poi_points i edge st
         = Ok st)
  ∧ rows out !! i = Some edge
  ∧ ∃ n g c k,
      score_at out "noise_score" i = Some n ∧ n == 0.5
      ∧ score_at out "green_score" i = Some g ∧ g == 0
      ∧ score_at out "clean_score" i = Some c ∧ c == 1
      ∧ score_at out "cultural_score" i = Some k ∧ k == 0.
Proof.
  intros (Hn & _ & ->)%score_streets_inv He Hno. split.
  { intros st. unfold edge_body, score_edge.
    by destruct Hno as [->|(g & -> & ->)]. }
  split; [done|].
  destruct (segment_skipped noise_gdf edge Hno) as [Hsn Hsc].
  destruct (reference_lookups edges noise_gdf tree_points cleaning_points
              poi_points i edge He) as (Hnz & (g & Hg & Hgn) & Hc & (k & Hk & Hkn)).
  destruct (assign_scores_columns edges
              (reference_scores edges noise_gdf tree_points cleaning_points
                 poi_points) i) as (En & Eg & Ec & Ek).
  rewrite Hnz, Hsn in En. rewrite Hg in Eg. rewrite Hc, Hsc in Ec. rewrite Hk in Ek.
  rewrite Hsc in Hgn, Hkn.
  destruct Hgn as (_ & _ & Hg0 & _). destruct Hkn as (_ & _ & Hk0 & _).
  eexists _, _, _, _.
  split; [exact En|]. split; [vm_compute; reflexivity|].
  split; [exact Eg|]. split; [by rewrite (np_round3_comp g 0) by auto|].
  split; [exact Ec|]. split; [vm_compute; reflexivity|].
  split; [exact Ek|]. by rewrite (np_round3_comp k 0) by auto.
Qed.

Lemma empty_geometry_defaults_witness :
  (∀ st, edge_body sorted_order sample_noise sample_trees [(0, 0)] [] 1
           {| name := None; geometry := None |} st = Ok st)
  ∧ rows sample_scored !! 1%nat = Some {| name := None; geometry := None |}
  ∧ ∃ n g c k,
      score_at sample_scored "noise_score" 1 = Some n ∧ n == 0.5
      ∧ score_at sample_scored "green_score" 1 = Some g ∧ g == 0
      ∧ score_at sample_scored "clean_score" 1 = Some c ∧ c == 1
      ∧ score_at sample_scored "cultural_score" 1 = Some k ∧ k == 0.
Proof.
  apply (empty_geometry_defaults sorted_order sample_edges sample_noise
           sample_trees [(0, 0)] [] sample_scored 1%nat _ sample_run eq_refl).
  by left.
Defined.

(** ** The pass on the store *)

Lemma frame_copy_fresh (l : nat) df (σ : gmap nat PyObject) :
  σ !! l = Some (ObjFrame df) →
  frame_copy l σ = (Ok (fresh (dom σ)), <[fresh (dom σ) := ObjFrame df]> σ)
  ∧ σ !! fresh (dom σ) = None.
Proof.
  intros H. unfold frame_copy. rewrite H. split; [done|].
  apply not_elem_of_dom, is_fresh.
Qed.

Lemma frame_setitem_insert (l : nat) df col values (σ : gmap nat PyObject) :
  frame_setitem l col values (<[l := ObjFrame df]> σ)
  = (Ok (), <[l := ObjFrame (setitem df col values)]> σ).
Proof.
  unfold frame_setitem. by rewrite lookup_insert_eq, insert_insert_eq.
Qed.

Lemma heap_bind_ok {A B} (m : Heap A) (f : A → Heap B) σ a σ' :
  m σ = (Ok a, σ') → (x ← m; f x) σ = f a σ'.
Proof. intros H. unfold mbind, heap_bind. by rewrite H. Qed.

Lemma heap_bind_raise {A B} (m : Heap A) (f : A → Heap B) σ e σ' :
  m σ = (Raise e, σ') → (x ← m; f x) σ = (Raise e, σ').
Proof. intros H. unfold mbind, heap_bind. by rewrite H. Qed.

Lemma assign_on_copy (l : nat) df s (σ : gmap nat PyObject) :
  (_ ← frame_setitem l "noise_score" (np_round3 <$> noise s);
   _ ← frame_setitem l "green_score" (np_round3 <$> green s);
   _ ← frame_setitem l "clean_score" (np_round3 <$> clean s);
   _ ← frame_setitem l "cultural_score" (np_round3 <$> cultural s);
   mret l) (<[l := ObjFrame df]> σ)
  = (Ok l, <[l := ObjFrame (assign_scores df s)]> σ).
Proof.
  do 4 (erewrite heap_bind_ok by apply frame_setitem_insert). done.
Qed.

Ltac read_step H :=
  first
    [ erewrite heap_bind_ok
        by (unfold read_points, read_noise, read_frame, lift_result;
            rewrite ?H; reflexivity)
    | erewrite heap_bind_raise
        by (unfold read_points, read_noise, read_frame, lift_result;
            rewrite ?H; reflexivity);
      by split; [auto|] ].

(** C10. [score_streets] leaves every object that existed before the call
    as it was, the five arguments included; the scored collection it
    returns is a new object, a copy of the segment collection with the
    four score columns, and a call that raises changes nothing. *)
Theorem score_streets_preserves_inputs O (σ : gmap nat PyObject)
    (edges noise_gdf tree_points cleaning_points poi_points : nat) :
  let run := score_streets_ref O edges noise_gdf tree_points cleaning_points
               poi_points σ in
  (∀ (l : nat) o, σ !! l = Some o → run.2 !! l = Some o)
  ∧ match run.1 with
    | Ok l =>
        σ !! l = None
        ∧ ∃ frame noise_rows tree_array cleaning_array poi_array out,
            σ !! edges = Some (ObjFrame frame)
            ∧ σ !! noise_gdf = Some (ObjNoise noise_rows)
            ∧ σ !! tree_points = Some (ObjPoints tree_array)
            ∧ σ !! cleaning_points = Some (ObjPoints cleaning_array)
            ∧ σ !! poi_points = Some (ObjPoints poi_array)
            ∧ score_streets O frame noise_rows tree_array cleaning_array poi_array
              = Ok out
            ∧ rows out = rows frame
            ∧ run.2 = <[l := ObjFrame out]> σ
    | Raise _ => run.2 = σ
    end.
Proof.
  cbv zeta. unfold score_streets_ref.
  destruct (σ !! tree_points) as [[?|?|ta]|] eqn:Ht; read_step Ht.
  destruct (σ !! cleaning_points) as [[?|?|ca]|] eqn:Hc; read_step Hc.
  destruct (σ !! poi_points) as [[?|?|pa]|] eqn:Hp; read_step Hp.
  destruct (σ !! noise_gdf) as [[?|nr|?]|] eqn:Hn; read_step Hn.
  destruct (σ !! edges) as [[fr|?|?]|] eqn:He; read_step He.
  destruct (score_arrays O fr nr ta ca pa) as [s|e] eqn:Hs; read_step Hs.
  destruct (frame_copy_fresh edges fr σ He) as [Hcopy Hfresh].
  erewrite heap_bind_ok by exact Hcopy.
  rewrite assign_on_copy. cbn [fst snd]. split.
  - intros l o Hl. rewrite lookup_insert_ne; [done|]. congruence.
  - split; [done|]. exists fr, nr, ta, ca, pa, (assign_scores fr s).
    unfold score_streets. rewrite Hs. done.
Qed.

(** * Further properties *)

(** ** More on [parse_db_range] *)

Module StrEdge.
Import Str StrFacts.
Local Open Scope string_scope.

Lemma lstrip_spaces pre s : all_space pre = true → lstrip (pre ++ s) = lstrip s.
Proof.
  induction pre as [|c pre IH]; [done|].
  intros [Hc Hpre]%andb_true_iff.
  change (String c pre ++ s) with (String c (pre ++ s)).
  cbn [lstrip]. rewrite Hc. auto.
Qed.

Lemma lstrip_all_space s : all_space s = true → lstrip s = "".
Proof.
  induction s as [|c s IH]; [done|].
  intros [Hc Hs]%andb_true_iff. cbn [lstrip]. rewrite Hc. auto.
Qed.

Lemma rstrip_all_space s : all_space s = true → rstrip s = "".
Proof.
  induction s as [|c s IH]; [done|].
  intros [Hc Hs]%andb_true_iff. cbn [rstrip]. by rewrite IH, Hc.
Qed.

Lemma rstrip_spaces s post : all_space post = true → rstrip (s ++ post) = rstrip s.
Proof.
  intros Hpost. induction s as [|c s IH].
  - by apply rstrip_all_space.
  - change (String c s ++ post) with (String c (s ++ post)).
    cbn [rstrip]. by rewrite IH.
Qed.

Lemma lstrip_app_spaces s post :
  all_space post = true →
  lstrip (s ++ post) = lstrip s ++ post ∨ (lstrip (s ++ post) = "" ∧ lstrip s = "").
Proof.
  intros Hpost. induction s as [|c s IH].
  - right. split; [by apply lstrip_all_space | done].
  - change (String c s ++ post) with (String c (s ++ post)).
    cbn [lstrip]. destruct (is_space c); [done|]. by left.
Qed.

Lemma strip_padding pre s post :
  all_space pre = true → all_space post = true →
  strip (pre ++ s ++ post) = strip s.
Proof.
  intros Hpre Hpost. unfold strip. rewrite lstrip_spaces by done.
  destruct (lstrip_app_spaces s post Hpost) as [->|[-> ->]]; [|done].
  by apply rstrip_spaces.
Qed.

Lemma parse_db_range_strip s t :
  strip s = strip t → parse_db_range s = parse_db_range t.
Proof. unfold parse_db_range. by intros ->. Qed.

End StrEdge.

(** X1. Blanks, tabs or line ends around a field do not change what
    [parse_db_range] makes of it, be it a value or an exception. *)
Theorem parse_db_range_padding pre s post :
  all_space pre = true → all_space post = true →
  parse_db_range (pre ++ s ++ post) = parse_db_range s.
Proof.
  intros Hpre Hpost. apply StrEdge.parse_db_range_strip.
  by apply StrEdge.strip_padding.
Qed.

Lemma parse_db_range_padding_witness :
  parse_db_range (" " ++ "70 - 75 dB(A)" ++ String "009" (String "010" ""))
  = parse_db_range "70 - 75 dB(A)".
Proof. apply parse_db_range_padding; reflexivity. Defined.

Module StrSign.
Import Str StrFacts.
Local Open Scope string_scope.


Lemma lstrip_has_char c s : has_char c s = false → has_char c (lstrip s) = false.
Proof.
  induction s as [|a s IH]; [done|]. cbn [lstrip].
  destruct (is_space a); [|done].
  cbn. intros [_ H]%orb_false_iff. auto.
Qed.

Lemma rstrip_has_char c s : has_char c s = false → has_char c (rstrip s) = false.
Proof.
  induction s as [|a s IH]; [done|].
  cbn [has_char]. intros [Ha Hs]%orb_false_iff. cbn [rstrip].
  specialize (IH Hs). destruct (rstrip s) as [|b r].
  - destruct (is_space a); [done|]. cbn. by rewrite Ha.
  - change (has_char c (String a (String b r)))
      with (Ascii.eqb a c || has_char c (String b r)).
    by rewrite Ha, IH.
Qed.

Lemma strip_has_char c s : has_char c s = false → has_char c (strip s) = false.
Proof. intros H. by apply rstrip_has_char, lstrip_has_char. Qed.




End StrSign.




Module StrSplit.
Import Str StrFacts StrSign.
Local Open Scope string_scope.

Lemma replace_from_has_char c old s skip :
  has_char c s = false → has_char c (replace_from old "" s skip) = false.
Proof.
  revert skip. induction s as [|a s IH]; intros skip; [done|].
  cbn [has_char]. intros [Ha Hs]%orb_false_iff. cbn [replace_from].
  destruct skip; [|by apply IH]. destruct (startswith _ _).
  - change (has_char c (replace_from old "" s (String.length old - 1)) = false).
    by apply IH.
  - cbn [has_char]. rewrite Ha. by apply IH.
Qed.

Lemma split_no_sep_single s sep : has_char sep s = false → split s sep = [s].
Proof.
  induction s as [|a s IH]; [done|].
  cbn [has_char]. intros [Ha Hs]%orb_false_iff.
  cbn [split]. by rewrite Ha, IH.
Qed.

Lemma split_at_sep a sep x :
  has_char sep a = false → split (a ++ String sep x) sep = a :: split x sep.
Proof.
  induction a as [|c a IH].
  - intros _. change ("" ++ String sep x) with (String sep x).
    cbn [split]. by rewrite Ascii.eqb_refl.
  - cbn [has_char]. intros [Hc Ha]%orb_false_iff.
    change (String c a ++ String sep x) with (String c (a ++ String sep x)).
    cbn [split]. by rewrite Hc, IH.
Qed.

Lemma numeric_no_dash D : all_numeric D = true → has_char "-" D = false.
Proof.
  induction D as [|c D IH]; [done|].
  intros [Hc HD]%andb_true_iff. cbn [has_char].
  destruct (numeric_char c Hc) as (_ & -> & _). auto.
Qed.

Lemma replace_numeric_only D :
  all_numeric D = true → replace_from "dB(A)" "" D 0 = D.
Proof.
  induction D as [|c D IH]; [done|].
  intros [Hc HD]%andb_true_iff.
  destruct (numeric_char c Hc) as (_ & _ & Hd & _).
  by rewrite (replace_step c _ Hd), IH.
Qed.

Lemma rstrip_dash x : rstrip (String "-" x) = String "-" (rstrip x).
Proof. cbn [rstrip]. by destruct (rstrip x). Qed.

Lemma no_dash_raises s :
  has_char "-" s = false → startswith (strip s) "<" = false →
  parse_db_range s = Raise IndexError ∨ parse_db_range s = Raise ValueError.
Proof.
  intros Hs Hlt. unfold parse_db_range. rewrite Hlt.
  rewrite split_no_sep_single.
  2:{ apply strip_has_char. unfold replace.
      by apply replace_from_has_char, strip_has_char. }
  cbn [getitem lookup list_lookup mbind result_bind].
  destruct (float _) as [low|e] eqn:Hf.
  - by left.
  - right. cbn. unfold float in Hf.
    destruct (sign_split _) as [neg body].
    destruct (cut body ".") as [ip fp].
    destruct (digits_value ip) as [[i ni]|]; [|by injection Hf as <-].
    destruct (digits_value _) as [[f nf]|]; [|by injection Hf as <-].
    destruct (_ =? 0)%nat; [by injection Hf as <-|done].
Qed.

Lemma blank_raises s : all_space s = true → parse_db_range s = Raise ValueError.
Proof.
  intros Hs. rewrite (StrEdge.parse_db_range_strip s "").
  - vm_compute. reflexivity.
  - unfold strip. by rewrite StrEdge.lstrip_all_space.
Qed.

Section Lenient.

Context (lo hi : string) (l h : Q).
Context (Hlo : all_numeric lo = true) (Hlo' : lo ≠ "").
Context (Hhi : all_numeric hi = true) (Hhi' : hi ≠ "").
Context (Hl : float lo = Ok l) (Hh : float hi = Ok h).

Lemma parse_compact : parse_db_range (lo ++ "-" ++ hi) = Ok ((l + h) / 2)%Q.
Proof.
  unfold parse_db_range.
  assert (strip (lo ++ "-" ++ hi) = lo ++ "-" ++ hi) as Hstrip.
  { unfold strip. rewrite lstrip_numeric by done.
    rewrite rstrip_app; change ("-" ++ hi) with (String "-" hi);
      rewrite rstrip_dash, rstrip_numeric by done; done. }
  rewrite Hstrip, startswith_numeric by done.
  assert (replace (lo ++ "-" ++ hi) "dB(A)" "" = lo ++ "-" ++ hi) as ->.
  { unfold replace. rewrite replace_numeric by done. f_equal.
    change ("-" ++ hi) with (String "-" hi).
    rewrite replace_step by done. f_equal. by apply replace_numeric_only. }
  rewrite Hstrip. change ("-" ++ hi) with (String "-" hi).
  rewrite split_at_sep by (by apply numeric_no_dash).
  rewrite split_no_sep_single by (by apply numeric_no_dash).
  cbn [getitem lookup list_lookup mbind result_bind].
  by rewrite !strip_numeric, Hl, Hh by done.
Qed.

Lemma app_snoc a c y : a ++ String c y = (a ++ String c "") ++ y.
Proof.
  induction a as [|b a IH]; [done|].
  change (String b a ++ String c y) with (String b (a ++ String c y)).
  by rewrite IH.
Qed.

Lemma rstrip_tail x :
  rstrip (lo ++ " - " ++ hi ++ String " " (String "-" x))
  = lo ++ " - " ++ hi ++ String " " (String "-" (rstrip x)).
Proof.
  assert (rstrip (String " " (String "-" x)) = String " " (String "-" (rstrip x)))
    as H1.
  { change (String " " (String "-" x)) with (" " ++ String "-" x).
    rewrite rstrip_app; by rewrite rstrip_dash. }
  assert (rstrip (hi ++ String " " (String "-" x))
          = hi ++ String " " (String "-" (rstrip x))) as H2
    by (rewrite rstrip_app; by rewrite H1).
  assert (rstrip (" - " ++ hi ++ String " " (String "-" x))
          = " - " ++ hi ++ String " " (String "-" (rstrip x))) as H3
    by (rewrite (rstrip_app " - "); rewrite H2; [done|apply app_nonempty]).
  rewrite rstrip_app; by rewrite H3.
Qed.

Lemma strip_tail x :
  strip (lo ++ " - " ++ hi ++ String " " (String "-" x))
  = lo ++ " - " ++ hi ++ String " " (String "-" (rstrip x)).
Proof. unfold strip. rewrite lstrip_numeric by done. apply rstrip_tail. Qed.

Lemma replace_tail x :
  replace (lo ++ " - " ++ hi ++ String " " (String "-" x)) "dB(A)" ""
  = lo ++ " - " ++ hi ++ String " " (String "-" (replace_from "dB(A)" "" x 0)).
Proof.
  unfold replace. rewrite replace_numeric by done. f_equal.
  change (" - " ++ hi ++ String " " (String "-" x))
    with (String " " (String "-" (String " " (hi ++ String " " (String "-" x))))).
  rewrite !replace_step by done. rewrite replace_numeric by done.
  by rewrite !replace_step by done.
Qed.

Lemma split_tail x :
  split (lo ++ " - " ++ hi ++ String " " (String "-" x)) "-"
  = (lo ++ " ") :: String " " (hi ++ " ") :: split x "-".
Proof.
  apply split_numeric; [done|].
  change (" - " ++ hi ++ String " " (String "-" x))
    with (String " " (String "-" (String " " (hi ++ String " " (String "-" x))))).
  cbn [split]. change (Ascii.eqb " " "-") with false.
  change (Ascii.eqb "-" "-") with true. cbv iota.
  assert (split (hi ++ String " " (String "-" x)) "-"
          = (hi ++ " ") :: split x "-") as ->.
  { rewrite app_snoc. apply split_at_sep.
    assert (∀ D, has_char "-" D = false → has_char "-" (D ++ " ") = false) as Hd.
    { clear. induction D as [|c D IH]; [done|]. cbn [has_char].
      intros [Hc HD]%orb_false_iff.
      change (String c D ++ " ") with (String c (D ++ " ")).
      cbn [has_char]. rewrite Hc. auto. }
    by apply Hd, numeric_no_dash. }
  done.
Qed.

Lemma parse_extra_parts rest :
  parse_db_range (lo ++ " - " ++ hi ++ " - " ++ rest) = Ok ((l + h) / 2)%Q.
Proof.
  unfold parse_db_range.
  change (lo ++ " - " ++ hi ++ " - " ++ rest)
    with (lo ++ " - " ++ hi ++ String " " (String "-" (String " " rest))).
  rewrite strip_tail, startswith_numeric by done.
  rewrite replace_tail, strip_tail, split_tail.
  cbn [getitem lookup list_lookup mbind result_bind].
  rewrite strip_low, Hl by done.
  change (String " " (hi ++ " ")) with (" " ++ hi ++ " ").
  rewrite StrEdge.strip_padding by done.
  by rewrite strip_numeric, Hh by done.
Qed.

End Lenient.
End StrSplit.

(** X3. A field without a dash that does not start with [<] never yields
    a value: [parse_db_range] raises IndexError (a lone number) or
    ValueError (anything else); a blank field raises ValueError. *)
Theorem parse_db_range_no_range s :
  has_char "-" s = false →
  Str.startswith (Str.strip s) "<" = false →
  (parse_db_range s = Raise IndexError ∨ parse_db_range s = Raise ValueError)
  ∧ (all_space s = true → parse_db_range s = Raise ValueError)
  ∧ (∀ v, Str.all_numeric s = true → Str.float s = Ok v →
       parse_db_range (s ++ " dB(A)") = Raise IndexError).
Proof.
  intros Hs Hlt. split; [by apply StrSplit.no_dash_raises|].
  split; [apply StrSplit.blank_raises|].
  intros v Hnum Hv.
  destruct (decide (s = ""%string)) as [->|Hne]; [by vm_compute in Hv|].
  unfold parse_db_range.
  assert (Str.strip (s ++ " dB(A)") = (s ++ " dB(A)")%string) as Hst.
  { unfold Str.strip. rewrite StrFacts.lstrip_numeric by done.
    by rewrite StrFacts.rstrip_app. }
  rewrite Hst, StrFacts.startswith_numeric by done.
  unfold Str.replace. rewrite StrFacts.replace_numeric by done.
  change (Str.replace_from "dB(A)" "" " dB(A)" 0) with " "%string.
  assert (Str.strip (s ++ " ") = s) as ->.
  { unfold Str.strip. rewrite StrFacts.lstrip_numeric by done.
    by apply StrFacts.rstrip_numeric_space. }
  rewrite StrFacts.split_numeric_only by done.
  cbn [Str.getitem lookup list_lookup mbind result_bind].
  by rewrite StrFacts.strip_numeric, Hv by done.
Qed.

Lemma parse_db_range_no_range_witness :
  (parse_db_range "70" = Raise IndexError ∨ parse_db_range "70" = Raise ValueError)
  ∧ (all_space "70" = true → parse_db_range "70" = Raise ValueError)
  ∧ (∀ v, Str.all_numeric "70" = true → Str.float "70" = Ok v →
       parse_db_range ("70" ++ " dB(A)") = Raise IndexError).
Proof. apply (parse_db_range_no_range "70"); reflexivity. Defined.

(** X4. The blanks around the dash and the unit are optional, and whatever
    follows a second dash is ignored: ["lo-hi"] and ["lo - hi - rest"] both
    give the mean of [lo] and [hi]. *)
Theorem parse_db_range_lenient lo hi l h :
  Str.all_numeric lo = true → lo ≠ ""%string →
  Str.all_numeric hi = true → hi ≠ ""%string →
  Str.float lo = Ok l → Str.float hi = Ok h →
  parse_db_range (lo ++ "-" ++ hi) = Ok ((l + h) / 2)
  ∧ ∀ rest, parse_db_range (lo ++ " - " ++ hi ++ " - " ++ rest)
            = Ok ((l + h) / 2).
Proof.
  intros. split; [by apply StrSplit.parse_compact|].
  intros rest. by apply StrSplit.parse_extra_parts.
Qed.

Lemma parse_db_range_lenient_witness :
  parse_db_range ("70" ++ "-" ++ "75") = Ok ((70 + 75) / 2)
  ∧ ∀ rest, parse_db_range ("70" ++ " - " ++ "75" ++ " - " ++ rest)
            = Ok ((70 + 75) / 2).
Proof.
  apply (parse_db_range_lenient "70" "75" 70 75); try reflexivity; discriminate.
Defined.

(** ** The loaders *)

Lemma Qltb_lt a b : Qltb a b = true ↔ a < b.
Proof.
  unfold Qltb. destruct (Qlt_le_dec a b); split; try done. intros. lra.
Qed.

Lemma Qleb_le a b : Qleb a b = true ↔ a <= b.
Proof.
  unfold Qleb. destruct (Qlt_le_dec b a); split; try done. intros. lra.
Qed.

Lemma in_barcelona_spec lat lng :
  in_barcelona lat lng = true ↔ (41 < lat ∧ lat < 42) ∧ 1.5 < lng ∧ lng < 2.5.
Proof.
  unfold in_barcelona. rewrite !andb_true_iff, !Qltb_lt. tauto.
Qed.

Lemma float_raises s e : Str.float s = Raise e → e = ValueError.
Proof.
  unfold Str.float. destruct (Str.sign_split _) as [neg body].
  destruct (Str.cut body ".") as [ip fp].
  destruct (Str.digits_value ip) as [[i ni]|]; [|by intros [= <-]].
  destruct (Str.digits_value _) as [[f nf]|]; [|by intros [= <-]].
  destruct (_ =? _)%nat; [by intros [= <-]|done].
Qed.

Lemma csv_float_Some (row : CsvRow) key v :
  csv_float row key = Ok (Some v)
  ↔ ∃ field, row !! key = Some (Some field) ∧ Str.float field = Ok v.
Proof.
  unfold csv_float. destruct (row !! key) as [[field|]|] eqn:Hk.
  - destruct (Str.float field) as [w|e] eqn:Hf.
    + split; [intros [= <-]; by exists field|]. intros (f & [= <-] & Hv). congruence.
    + split; [by destruct e|]. intros (f & [= <-] & Hv). congruence.
  - split; [done|]. by intros (f & ? & _).
  - split; [done|]. by intros (f & ? & _).
Qed.

Lemma csv_float_Raise (row : CsvRow) key e :
  csv_float row key = Raise e ↔ e = TypeError ∧ row !! key = Some None.
Proof.
  unfold csv_float. destruct (row !! key) as [[field|]|] eqn:Hk.
  - destruct (Str.float field) as [w|e'] eqn:Hf.
    + split; [done|]. by intros [_ ?].
    + apply float_raises in Hf as ->. split; [done|]. by intros [_ ?].
  - split; [by intros [= <-]|]. by intros [-> _].
  - split; [done|]. by intros [_ ?].
Qed.

Lemma csv_point_Some lat_key lng_key (row : CsvRow) p :
  csv_point lat_key lng_key row = Ok (Some p) →
  in_barcelona p.2 p.1 = true
  ∧ ∃ lat_field lng_field,
      row !! lat_key = Some (Some lat_field) ∧ Str.float lat_field = Ok p.2
      ∧ row !! lng_key = Some (Some lng_field) ∧ Str.float lng_field = Ok p.1.
Proof.
  unfold csv_point.
  destruct (csv_float row lat_key) as [[lat|]|] eqn:H1; cbn; [|done|done].
  destruct (csv_float row lng_key) as [[lng|]|] eqn:H2; cbn; [|done|done].
  destruct (in_barcelona lat lng) eqn:Hb; [|done]. intros [= <-].
  apply csv_float_Some in H1 as (lat_field & ? & ?).
  apply csv_float_Some in H2 as (lng_field & ? & ?).
  split; [done|]. by exists lat_field, lng_field.
Qed.

Lemma csv_point_Raise lat_key lng_key (row : CsvRow) e :
  csv_point lat_key lng_key row = Raise e
  ↔ e = TypeError ∧ short_row lat_key lng_key row.
Proof.
  unfold csv_point, short_row.
  destruct (csv_float row lat_key) as [[lat|]|e1] eqn:H1; cbn.
  - apply csv_float_Some in H1 as (field & Hf & Hlat).
    destruct (csv_float row lng_key) as [[lng|]|e2] eqn:H2; cbn.
    + apply csv_float_Some in H2 as (field2 & Hf2 & _).
      split; [done|]. intros [_ [?|(? & ? & _ & _ & ?)]]; congruence.
    + split; [done|]. intros [_ [?|(? & ? & _ & _ & Hn)]]; [congruence|].
      assert (csv_float row lng_key = Raise TypeError) by by apply csv_float_Raise.
      congruence.
    + apply csv_float_Raise in H2 as [-> Hn].
      split; [intros [= <-]|by intros [-> _]]. split; [done|]. right. by exists field, lat.
  - split; [done|]. intros [_ [Hn|(f & v & Hf & Hv & _)]].
    + assert (csv_float row lat_key = Raise TypeError) by by apply csv_float_Raise.
      congruence.
    + assert (csv_float row lat_key = Ok (Some v))
        by (apply csv_float_Some; by exists f).
      congruence.
  - apply csv_float_Raise in H1 as [-> Hn].
    split; [intros [= <-]|by intros [-> _]]. split; [done|]. by left.
Qed.

Lemma csv_point_Ok lat_key lng_key (row : CsvRow) :
  ¬ short_row lat_key lng_key row → ∃ p, csv_point lat_key lng_key row = Ok p.
Proof.
  intros Hs. destruct (csv_point lat_key lng_key row) as [p|e] eqn:Hp; [by exists p|].
  apply csv_point_Raise in Hp as [_ ?]. done.
Qed.

Lemma csv_point_missing lat_key lng_key (row : CsvRow) :
  row !! lat_key = None ∨ (row !! lng_key = None ∧ row !! lat_key ≠ Some None) →
  csv_point lat_key lng_key row = Ok None.
Proof.
  intros H.
  destruct (csv_point lat_key lng_key row) as [[p|]|e] eqn:Hp; [| done |].
  - apply csv_point_Some in Hp as (_ & ? & ? & ? & _ & ? & _).
    destruct H as [?|[? _]]; congruence.
  - apply csv_point_Raise in Hp as [_ [?|(? & ? & ? & _ & ?)]];
      destruct H as [?|[? ?]]; congruence.
Qed.



Lemma csv_points_missing lat_key lng_key (rows : list CsvRow) :
  (∀ row, row ∈ rows →
     row !! lat_key = None ∨ (row !! lng_key = None ∧ row !! lat_key ≠ Some None)) →
  csv_points lat_key lng_key rows = Ok [].
Proof.
  induction rows as [|row rows IH]; [done|]. intros H. cbn [csv_points].
  rewrite csv_point_missing by (apply H; by left).
  rewrite IH; [done|]. intros r Hr. apply H. by right.
Qed.







(** X6. The column names are matched exactly, case included: a file
    without the column [latitud] gives [load_trees] no point, and a file
    without [Latitud] (capitalised) gives [load_cleaning_spots] no point;
    the same holds when the longitude column is missing and no line is too
    short for the latitude.  No exception is raised. *)
Theorem loaders_need_their_columns (street_rows park_rows cleaning_rows : list CsvRow) :
  (∀ row, row ∈ street_rows ++ park_rows →
     row !! "latitud" = None
     ∨ (row !! "longitud" = None ∧ row !! "latitud" ≠ Some None)) →
  (∀ row, row ∈ cleaning_rows →
     row !! "Latitud" = None
     ∨ (row !! "Longitud" = None ∧ row !! "Latitud" ≠ Some None)) →
  load_trees street_rows park_rows = Ok []
  ∧ load_cleaning_spots cleaning_rows = Ok [].
Proof.
  intros Ht Hc. unfold load_trees, load_cleaning_spots.
  rewrite !csv_points_missing; try done.
  all: intros row Hrow; apply Ht; rewrite elem_of_app; auto.
Qed.

Lemma loaders_need_their_columns_witness :
  load_trees [{[ "Latitud" := Some "41.40"; "Longitud" := Some "2.17" ]}%string] []
  = Ok []
  ∧ load_cleaning_spots [sample_tree_row] = Ok [].
Proof.
  apply loaders_need_their_columns.
  - intros row [->%list_elem_of_singleton|H]%elem_of_app;
      [by left | by apply elem_of_nil in H].
  - intros row ->%list_elem_of_singleton. by left.
Defined.



(** ** [load_pois] *)

Lemma is_str_spec value s : is_str value s = true ↔ value = JStr s.
Proof.
  destruct value as [| | |t| |]; cbn; try (split; done).
  rewrite String.eqb_eq. split; congruence.
Qed.

Lemma unpack2_in_bounds coordinates lng lat p :
  unpack2 coordinates = Pair lng lat → poi_in_bounds lng lat = Some p →
  coordinates = JArr [JNum p.1; JNum p.2] ∧ in_barcelona p.2 p.1 = true.
Proof.
  intros Hu Hp.
  assert (lng = JNum p.1 ∧ lat = JNum p.2 ∧ in_barcelona p.2 p.1 = true)
    as (-> & -> & Hb).
  { unfold poi_in_bounds in Hp.
    destruct lat as [| |lat| | |], lng as [| |lng| | |]; try done.
    destruct (in_barcelona lat lng) eqn:Hb; [|done]. by injection Hp as <-. }
  split; [|done]. unfold unpack2 in Hu.
  destruct coordinates as [| | |s|items|fields]; try done.
  - destruct s as [|a [|b [|c s]]]; cbn in Hu; done.
  - destruct items as [|a [|b [|c items]]]; cbn in Hu; try done.
    by injection Hu as -> ->.
  - destruct fields as [|a [|b [|c fields]]]; cbn in Hu; done.
Qed.

Lemma poi_feature_Some feature p :
  poi_feature feature = Ok (Some p) →
  in_barcelona p.2 p.1 = true
  ∧ ∃ geom,
      subscript feature "geometry" = Some geom
      ∧ subscript geom "type" = Some (JStr "Point")
      ∧ subscript geom "coordinates" = Some (JArr [JNum p.1; JNum p.2]).
Proof.
  unfold poi_feature.
  destruct (subscript feature "geometry") as [geom|]; [|done].
  destruct (subscript geom "type") as [type|] eqn:Ht; [|done].
  destruct (is_str type "Point") eqn:Hty; [|done].
  apply is_str_spec in Hty as ->.
  destruct (subscript geom "coordinates") as [coordinates|] eqn:Hc; [|done].
  destruct (unpack2 coordinates) as [lng lat| |] eqn:Hu; try done.
  intros [= Hp]. destruct (unpack2_in_bounds _ _ _ _ Hu Hp) as [-> Hb].
  split; [done|]. by exists geom.
Qed.

Lemma poi_feature_error feature e : poi_feature feature = Raise e → e = ValueError.
Proof.
  unfold poi_feature.
  repeat (match goal with
          | |- context [match ?x with _ => _ end] => destruct x
          end; try done).
  by intros [= <-].
Qed.

Lemma poi_feature_wrong_length feature geom coords :
  subscript feature "geometry" = Some geom →
  subscript geom "type" = Some (JStr "Point") →
  subscript geom "coordinates" = Some (JArr coords) →
  length coords ≠ 2%nat →
  poi_feature feature = Raise ValueError.
Proof.
  intros Hg Ht Hc Hlen. unfold poi_feature. rewrite Hg, Ht. cbn. rewrite Hc.
  unfold unpack2. by destruct coords as [|a [|b [|c coords]]].
Qed.

Lemma load_pois_error features e : load_pois features = Raise e → e = ValueError.
Proof.
  induction features as [|f features IH]; [done|]. cbn.
  destruct (poi_feature f) as [p|e'] eqn:Hf; cbn.
  - destruct (load_pois features) as [points|e'']; cbn; [done|].
    intros [= <-]. by apply IH.
  - intros [= <-]. by eapply poi_feature_error.
Qed.

Lemma load_pois_Ok features points :
  load_pois features = Ok points →
  (length points ≤ length features)%nat
  ∧ ∀ p, p ∈ points → ∃ feature, feature ∈ features ∧ poi_feature feature = Ok (Some p).
Proof.
  revert points. induction features as [|f features IH]; intros points; cbn.
  - intros [= <-]. split; [done|]. by intros p H%elem_of_nil.
  - destruct (poi_feature f) as [p|] eqn:Hf; cbn; [|done].
    destruct (load_pois features) as [points'|]; cbn; [|done].
    destruct (IH points' eq_refl) as [Hlen Hin].
    intros [= <-]. split.
    + destruct p; cbn; lia.
    + intros q Hq.
      assert (q ∈ points' ∨ p = Some q) as [Hq1| ->].
      { destruct p as [p0|]; [|by left].
        apply elem_of_cons in Hq as [Hq|Hq]; [right; by rewrite Hq | by left]. }
      * destruct (Hin q Hq1) as (feature & ? & ?). exists feature.
        split; [by right|done].
      * exists f. split; [by left|done].
Qed.

(** X7. When [load_pois] returns, it returns at most one point per
    feature, and every point lies strictly inside the plausibility box and
    comes from a feature whose geometry is a [Point] with exactly two
    numeric coordinates, longitude first. *)
Theorem load_pois_points features points :
  load_pois features = Ok points →
  (length points ≤ length features)%nat
  ∧ ∀ p, p ∈ points →
      (1.5 < p.1 ∧ p.1 < 2.5 ∧ 41 < p.2 ∧ p.2 < 42)
      ∧ ∃ feature geom,
          feature ∈ features
          ∧ subscript feature "geometry" = Some geom
          ∧ subscript geom "type" = Some (JStr "Point")
          ∧ subscript geom "coordinates" = Some (JArr [JNum p.1; JNum p.2]).
Proof.
  intros [Hlen Hin]%load_pois_Ok. split; [done|].
  intros p (feature & Hf & Hp)%Hin.
  apply poi_feature_Some in Hp as (Hb%in_barcelona_spec & geom & ?).
  split; [tauto|]. by exists feature, geom.
Qed.

Lemma load_pois_points_witness :
  (length [(2.17%Q, 41.38%Q)] ≤ length [sample_poi])%nat
  ∧ ∀ p, p ∈ [(2.17, 41.38)] →
      (1.5 < p.1 ∧ p.1 < 2.5 ∧ 41 < p.2 ∧ p.2 < 42)
      ∧ ∃ feature geom,
          feature ∈ [sample_poi]
          ∧ subscript feature "geometry" = Some geom
          ∧ subscript geom "type" = Some (JStr "Point")
          ∧ subscript geom "coordinates" = Some (JArr [JNum p.1; JNum p.2]).
Proof. apply (load_pois_points [sample_poi]). reflexivity. Defined.

(** X8. A [Point] feature whose coordinate array does not have exactly two
    entries (a point with an altitude, say) makes [load_pois] raise
    ValueError, wherever it stands in the list: the unpacking error is not
    among the exceptions the loop catches.  No other exception escapes. *)
Theorem load_pois_wrong_length features feature geom coords :
  feature ∈ features →
  subscript feature "geometry" = Some geom →
  subscript geom "type" = Some (JStr "Point") →
  subscript geom "coordinates" = Some (JArr coords) →
  length coords ≠ 2%nat →
  load_pois features = Raise ValueError
  ∧ ∀ others e, load_pois others = Raise e → e = ValueError.
Proof.
  intros Hin Hg Ht Hc Hlen. split; [|apply load_pois_error].
  pose proof (poi_feature_wrong_length _ _ _ Hg Ht Hc Hlen) as Hraise.
  induction features as [|f features IH]; [by apply elem_of_nil in Hin|].
  cbn. destruct (poi_feature f) as [p|e] eqn:Hf; cbn.
  - apply elem_of_cons in Hin as [->|Hin]; [congruence|].
    by rewrite (IH Hin).
  - by rewrite (poi_feature_error _ _ Hf).
Qed.

Lemma load_pois_wrong_length_witness :
  load_pois [sample_poi; sample_poi_3d] = Raise ValueError
  ∧ ∀ others e, load_pois others = Raise e → e = ValueError.
Proof.
  apply (load_pois_wrong_length [sample_poi; sample_poi_3d] sample_poi_3d
           (JObj [("type", JStr "Point");
                  ("coordinates", JArr [JNum 2.17; JNum 41.38; JNum 12])]%string)
           [JNum 2.17; JNum 41.38; JNum 12]); try reflexivity.
  - right. left.
  - cbn. lia.
Defined.

(** ** [load_noise_data] *)

Lemma caught_Some {A} (r : result A) a : caught r = Some a ↔ r = Ok a.
Proof. destruct r; cbn; split; congruence. Qed.











(** ** More on [count_points_near_line] *)

Lemma filter_length_mono {A} (P Q : A → Prop)
    `{∀ x, Decision (P x)} `{∀ x, Decision (Q x)} (l : list A) :
  (∀ x, x ∈ l → P x → Q x) → (length (filter P l) ≤ length (filter Q l))%nat.
Proof.
  induction l as [|x l IH]; [done|]. intros HPQ.
  assert (length (filter P l) ≤ length (filter Q l))%nat as IH'
    by (apply IH; intros y Hy; apply HPQ; by right).
  rewrite !filter_cons.
  destruct (decide (P x)) as [HP|HP].
  - rewrite decide_True by (apply HPQ; [by left|done]). cbn. lia.
  - destruct (decide (Q x)); cbn; lia.
Qed.

Lemma filter_length_or {A} (P Q R : A → Prop)
    `{∀ x, Decision (P x)} `{∀ x, Decision (Q x)} `{∀ x, Decision (R x)}
    (l : list A) :
  (∀ x, P x → Q x ∨ R x) →
  (length (filter P l) ≤ length (filter Q l) + length (filter R l))%nat.
Proof.
  intros HPQ. induction l as [|x l IH]; [done|].
  rewrite !filter_cons.
  destruct (decide (P x)) as [HP|HP].
  - destruct (HPQ x HP).
    + rewrite (decide_True (P := Q x)) by done.
      destruct (decide (R x)); cbn; lia.
    + rewrite (decide_True (P := R x)) by done.
      destruct (decide (Q x)); cbn; lia.
  - destruct (decide (Q x)), (decide (R x)); cbn; lia.
Qed.

Lemma within_radius r r' x p :
  0 <= r → r <= r' → within r x p = true → within r' x p = true.
Proof.
  unfold within. rewrite !Qle_bool_iff. intros H0 Hr Hd.
  eapply Qle_trans; [exact Hd|]. nra.
Qed.

Lemma distinct_near_mono points coords coords' r r' :
  0 <= r → r <= r' → coords ⊆ coords' →
  (distinct_near points coords r ≤ distinct_near points coords' r')%nat.
Proof.
  intros H0 Hr Hsub. unfold distinct_near. apply filter_length_mono.
  intros i _. rewrite !index_near_spec.
  intros (p & c & Hp & Hc & Hw). exists p, c.
  split; [done|]. split; [by apply Hsub|]. by eapply within_radius.
Qed.

Lemma distinct_near_same_vertices points coords coords' r :
  (∀ v, v ∈ coords ↔ v ∈ coords') →
  distinct_near points coords r = distinct_near points coords' r.
Proof.
  intros Hv. unfold distinct_near. f_equal. apply list_filter_iff.
  intros i. rewrite !index_near_spec.
  split; intros (p & c & Hp & Hc & Hw); exists p, c; by rewrite ?Hv in *.
Qed.

Lemma distinct_near_app points coords1 coords2 r :
  (distinct_near points (coords1 ++ coords2) r
   ≤ distinct_near points coords1 r + distinct_near points coords2 r)%nat.
Proof.
  unfold distinct_near. apply filter_length_or.
  intros i. rewrite !index_near_spec.
  intros (p & c & Hp & [Hc|Hc]%elem_of_app & Hw); [left|right]; by exists p, c.
Qed.

Lemma distinct_near_le_points points coords r :
  (distinct_near points coords r ≤ length points)%nat.
Proof.
  unfold distinct_near. etrans; [apply length_filter|]. by rewrite length_seq.
Qed.

Lemma distinct_near_by_point_from (near_p : Point → bool) pre points :
  length (filter (λ i, match (pre ++ points) !! i with
                       | Some p => near_p p
                       | None => false
                       end = true)
            (seq (length pre) (length points)))
  = length (filter (λ p, near_p p = true) points).
Proof.
  revert pre. induction points as [|p points IH]; intros pre; [done|].
  cbn [length seq]. rewrite !filter_cons.
  rewrite (lookup_app_r pre), Nat.sub_diag by done. cbn [lookup list_lookup].
  specialize (IH (pre ++ [p])). rewrite <- app_assoc in IH.
  rewrite length_app in IH. cbn in IH. rewrite Nat.add_1_r in IH.
  destruct (decide (near_p p = true)); cbn; by rewrite IH.
Qed.

Lemma distinct_near_by_point points coords r :
  distinct_near points coords r
  = length (filter (λ p, existsb (λ v, within r v p) coords = true) points).
Proof.
  unfold distinct_near, index_near.
  apply (distinct_near_by_point_from (λ p, existsb (λ v, within r v p) coords) []).
Qed.

Lemma distinct_near_perm points points' coords r :
  points ≡ₚ points' →
  distinct_near points coords r = distinct_near points' coords r.
Proof. intros Hp. rewrite !distinct_near_by_point. by rewrite Hp. Qed.

Lemma segment_count_perm points points' edge :
  points ≡ₚ points' → segment_count points edge = segment_count points' edge.
Proof.
  intros Hp. unfold segment_count. destruct (geometry edge) as [g|]; [|done].
  destruct (is_empty g); [done|]. by apply distinct_near_perm.
Qed.

(** X12. The count of [count_points_near_line] never exceeds the size of
    the point cloud, and the count for a chain of vertices is at most the
    sum of the counts of its two halves (a point near both halves is
    counted once). *)
Theorem count_points_near_line_bounds O points points_array r coords1 coords2 c :
  (count_points_near_line {| shape := LineString (coords1 ++ coords2); centroid := c |}
     (cKDTree_build O points) points_array r ≤ length points)%nat
  ∧ (count_points_near_line
       {| shape := LineString (coords1 ++ coords2); centroid := c |}
       (cKDTree_build O points) points_array r
     ≤ count_points_near_line {| shape := LineString coords1; centroid := c |}
         (cKDTree_build O points) points_array r
       + count_points_near_line {| shape := LineString coords2; centroid := c |}
           (cKDTree_build O points) points_array r)%nat.
Proof.
  rewrite !count_points_near_line_distinct. cbn [line_coords shape].
  split; [apply distinct_near_le_points | apply distinct_near_app].
Qed.

(** X13. The count depends on the vertices of a geometry only as a set:
    two geometries with the same vertices, in any order and multiplicity
    and however split into parts, get the same count. *)
Theorem count_points_near_line_vertex_set O points points_array r geom geom' :
  (∀ v, v ∈ line_coords geom ↔ v ∈ line_coords geom') →
  count_points_near_line geom (cKDTree_build O points) points_array r
  = count_points_near_line geom' (cKDTree_build O points) points_array r.
Proof.
  intros Hv. rewrite !count_points_near_line_distinct.
  by apply distinct_near_same_vertices.
Qed.

Lemma count_points_near_line_vertex_set_witness :
  count_points_near_line
    {| shape := LineString [(0, 0); (0.0001, 0)]; centroid := (0.00005, 0) |}
    (cKDTree_build sorted_order sample_trees) sample_trees (25 / 111000)
  = count_points_near_line
      {| shape := MultiLineString [[(0.0001, 0)]; [(0, 0); (0.0001, 0)]];
         centroid := (0, 0) |}
      (cKDTree_build sorted_order sample_trees) sample_trees (25 / 111000).
Proof.
  apply count_points_near_line_vertex_set. intros v. cbn.
  rewrite !elem_of_cons. rewrite elem_of_nil. tauto.
Defined.

(** X14. The count grows with the buffer radius and with the set of
    vertices: a larger non-negative radius or additional vertices never
    lower it. *)
Theorem count_points_near_line_monotone O points points_array r r' geom geom' :
  0 <= r → r <= r' → line_coords geom ⊆ line_coords geom' →
  (count_points_near_line geom (cKDTree_build O points) points_array r
   ≤ count_points_near_line geom' (cKDTree_build O points) points_array r')%nat.
Proof.
  intros. rewrite !count_points_near_line_distinct.
  by apply distinct_near_mono.
Qed.

Lemma count_points_near_line_monotone_witness :
  Nat.le
    (count_points_near_line
       {| shape := LineString [(0, 0)]; centroid := (0, 0) |}
       (cKDTree_build sorted_order sample_trees) sample_trees (1 / 10000))
    (count_points_near_line sample_geometry
       (cKDTree_build sorted_order sample_trees) sample_trees (25 / 111000)).
Proof.
  apply count_points_near_line_monotone.
  - vm_compute. discriminate.
  - vm_compute. discriminate.
  - cbn. intros v ->%list_elem_of_singleton. left.
Defined.

(** X15. The order of the points in the tree, cleaning and POI arrays is
    irrelevant: [score_streets] gives the same result, scores and raised
    exception alike, on point clouds that are permutations of each other. *)
Theorem score_streets_point_order O edges noise_gdf tree_points tree_points'
    cleaning_points cleaning_points' poi_points poi_points' :
  tree_points ≡ₚ tree_points' →
  cleaning_points ≡ₚ cleaning_points' →
  poi_points ≡ₚ poi_points' →
  score_streets O edges noise_gdf tree_points cleaning_points poi_points
  = score_streets O edges noise_gdf tree_points' cleaning_points' poi_points'.
Proof.
  intros Ht Hc Hp. unfold score_streets.
  destruct (located_dec noise_gdf) as [Hloc|Hloc].
  2:{ by rewrite !score_arrays_empty_centroid. }
  destruct (decide (noise_gdf = [])) as [Hn|Hn].
  { by rewrite !score_arrays_no_noise. }
  destruct (decide (rows edges = [])) as [He|He].
  { by rewrite !score_arrays_no_edges. }
  rewrite !score_arrays_spec by done. unfold reference_scores.
  assert (∀ points points', points ≡ₚ points' →
            segment_count points <$> rows edges
            = segment_count points' <$> rows edges) as Heq.
  { intros points points' Hperm. apply list_fmap_ext.
    intros i edge _. by apply segment_count_perm. }
  by rewrite (Heq _ _ Ht), (Heq _ _ Hc), (Heq _ _ Hp).
Qed.

Lemma score_streets_point_order_witness :
  score_streets sorted_order sample_edges sample_noise sample_trees [(0, 0)] []
  = score_streets sorted_order sample_edges sample_noise (reverse sample_trees)
      [(0, 0)] [].
Proof.
  apply score_streets_point_order; [|done|done].
  vm_compute. apply Permutation_sym, (Permutation_rev [_; _; _]).
Defined.

(** ** The percentile cap *)

Lemma QofN_le (a b : nat) : (a ≤ b)%nat → QofN a <= QofN b.
Proof. intros H. unfold QofN. rewrite <- Zle_Qle. lia. Qed.

Lemma sorted_lookup_bounds (a : list nat) (i lo hi : nat) :
  (∀ x, x ∈ a → lo ≤ x ≤ hi)%nat → (i < length a)%nat →
  (lo ≤ default 0 (merge_sort Nat.le a !! i) ≤ hi)%nat.
Proof.
  intros Hb Hi.
  pose proof (merge_sort_Permutation Nat.le a) as Hperm.
  destruct (merge_sort Nat.le a !! i) as [x|] eqn:Hx.
  - cbn. apply Hb. rewrite <- Hperm. by eapply list_elem_of_lookup_2.
  - apply lookup_ge_None in Hx. rewrite Hperm in Hx. lia.
Qed.

Lemma np_percentile_bounds (a : list nat) (q : Q) (lo hi : nat) :
  a ≠ [] → 0 <= q → q <= 100 →
  (∀ x, x ∈ a → lo ≤ x ≤ hi)%nat →
  QofN lo <= np_percentile a q ∧ np_percentile a q <= QofN hi.
Proof.
  intros Hne Hq0 Hq1 Hb. unfold np_percentile.
  set (n := length a). set (h := QofN (n - 1) * q / 100).
  assert (0 < n)%nat as Hn by (subst n; destruct a; [done|cbn; lia]).
  assert (0 <= QofN (n - 1)) as Hn1 by apply QofN_nonneg.
  assert (0 <= h ∧ h <= QofN (n - 1)) as [Hh0 Hh1].
  { subst h. generalize dependent (QofN (n - 1)). intros N HN.
    split; const_inverses; nra. }
  pose proof (Qfloor_le h) as Hfl. pose proof (Qlt_floor h) as Hfu.
  assert (0 <= Qfloor h)%Z as Hf0.
  { rewrite <- (Qfloor_Z 0). by apply Qfloor_resp_le. }
  assert (Qfloor h <= Z.of_nat (n - 1))%Z as Hf1.
  { rewrite Zle_Qle. eapply Qle_trans; [exact Hfl|exact Hh1]. }
  rewrite inject_Z_plus in Hfu. change (inject_Z 1) with 1 in Hfu.
  set (g := h - inject_Z (Qfloor h)).
  assert (0 <= g ∧ g <= 1) as [Hg0 Hg1] by (subst g; split; lra).
  destruct (sorted_lookup_bounds a (Z.to_nat (Qfloor h)) lo hi Hb) as [Hl1 Hl2];
    [fold n; lia|].
  destruct (sorted_lookup_bounds a
              (Nat.min (Z.to_nat (Qfloor h) + 1) (n - 1)) lo hi Hb) as [Hu1 Hu2];
    [fold n; lia|].
  apply QofN_le in Hl1, Hl2, Hu1, Hu2.
  generalize dependent (QofN (default 0%nat
    (merge_sort Nat.le a !! Z.to_nat (Qfloor h)))). intros vlo ? ?.
  generalize dependent (QofN (default 0%nat
    (merge_sort Nat.le a !! Nat.min (Z.to_nat (Qfloor h) + 1) (n - 1)))).
  intros vhi ? ?.
  generalize dependent (QofN lo). intros L. generalize dependent (QofN hi).
  intros. split; nra.
Qed.

Lemma np_max_spec (counts : list nat) (m : nat) :
  np_max counts = Ok m → m ∈ counts ∧ ∀ x, x ∈ counts → (x ≤ m)%nat.
Proof.
  destruct counts as [|x a]; [done|]. cbn. intros [= <-].
  induction a as [|y a [IH1 IH2]]; cbn.
  - split; [left|]. by intros z ->%list_elem_of_singleton.
  - split.
    + destruct (Nat.max_spec y (foldr Nat.max x a)) as [[_ ->]|[_ ->]].
      * apply elem_of_cons in IH1 as [->|?]; [left|right; by right].
      * right. left.
    + intros z [->|[->|Hz]%elem_of_cons]%elem_of_cons.
      * specialize (IH2 x (list_elem_of_here _ _)). lia.
      * lia.
      * specialize (IH2 z). rewrite elem_of_cons in IH2.
        specialize (IH2 (or_intror Hz)). lia.
Qed.

Lemma percentile_in_range (counts : list nat) (m : nat) :
  np_max counts = Ok m → (0 < m)%nat →
  1 <= np_percentile (filter (λ c, (0 < c)%nat) counts) 90
  ∧ np_percentile (filter (λ c, (0 < c)%nat) counts) 90 <= QofN m.
Proof.
  intros [Hm Hle]%np_max_spec Hpos.
  change 1 with (QofN 1).
  apply np_percentile_bounds; [|lra|lra|].
  - intros Hnil. assert (m ∈ filter (λ c, (0 < c)%nat) counts) as H
      by (by apply list_elem_of_filter).
    rewrite Hnil in H. by apply elem_of_nil in H.
  - intros x [Hx Hin]%list_elem_of_filter. split; [lia | by apply Hle].
Qed.

(** X16. Whenever the cap of the normalisation is computed, that is when
    some count is positive, it is the 90th percentile itself: it lies
    between 1 and the largest count, so the floor at 1 never applies. *)
Theorem percentile_cap_range (counts : list nat) (m : nat) :
  np_max counts = Ok m → (0 < m)%nat →
  percentile_cap counts = np_percentile (filter (λ c, (0 < c)%nat) counts) 90
  ∧ 1 <= percentile_cap counts
  ∧ percentile_cap counts <= QofN m.
Proof.
  intros Hm Hpos. destruct (percentile_in_range counts m Hm Hpos) as [H1 H2].
  assert (percentile_cap counts
          = np_percentile (filter (λ c, (0 < c)%nat) counts) 90) as ->.
  { unfold percentile_cap, py_max. destruct (Qlt_le_dec _ _); [lra|done]. }
  done.
Qed.

Lemma percentile_cap_range_witness :
  percentile_cap [1; 2; 3; 4; 10]%nat
  = np_percentile (filter (λ c, (0 < c)%nat) [1; 2; 3; 4; 10]%nat) 90
  ∧ 1 <= percentile_cap [1; 2; 3; 4; 10]%nat
  ∧ percentile_cap [1; 2; 3; 4; 10]%nat <= QofN 10.
Proof.
  apply percentile_cap_range; [reflexivity | lia].
Defined.

(** ** Order and rounding *)

Lemma rint_mono x y : x <= y → (rint x <= rint y)%Z.
Proof.
  intros Hxy.
  pose proof (Qfloor_le x) as Hx1. pose proof (Qlt_floor x) as Hx2.
  pose proof (Qfloor_le y) as Hy1. pose proof (Qlt_floor y) as Hy2.
  rewrite inject_Z_plus in Hx2, Hy2. change (inject_Z 1) with 1 in Hx2, Hy2.
  pose proof (Qfloor_resp_le x y Hxy) as Hf.
  destruct (Z.eq_dec (Qfloor x) (Qfloor y)) as [Heq|Hne].
  - unfold rint. rewrite <- Heq in *.
    destruct (Qcompare (x - inject_Z (Qfloor x)) (1 # 2)) eqn:Ex;
      destruct (Qcompare (y - inject_Z (Qfloor x)) (1 # 2)) eqn:Ey;
      try (destruct (Z.even _)); try lia;
      first [apply Qeq_alt in Ex | apply Qlt_alt in Ex | apply Qgt_alt in Ex];
      first [apply Qeq_alt in Ey | apply Qlt_alt in Ey | apply Qgt_alt in Ey];
      lra.
  - assert (Qfloor x + 1 <= Qfloor y)%Z by lia.
    assert (rint x <= Qfloor x + 1)%Z
      by (unfold rint; destruct (Qcompare _ _); try destruct (Z.even _); lia).
    assert (Qfloor y <= rint y)%Z
      by (unfold rint; destruct (Qcompare _ _); try destruct (Z.even _); lia).
    lia.
Qed.

Lemma np_round3_mono x y : x <= y → np_round3 x <= np_round3 y.
Proof.
  intros Hxy. unfold np_round3.
  assert (rint (x * 1000) <= rint (y * 1000))%Z as H
    by (apply rint_mono; lra).
  rewrite Zle_Qle in H. qlra.
Qed.

Lemma rint_error x : - (1 # 2) <= inject_Z (rint x) - x ∧ inject_Z (rint x) - x <= 1 # 2.
Proof.
  pose proof (Qfloor_le x) as Hx1. pose proof (Qlt_floor x) as Hx2.
  rewrite inject_Z_plus in Hx2. change (inject_Z 1) with 1 in Hx2.
  unfold rint.
  destruct (Qcompare (x - inject_Z (Qfloor x)) (1 # 2)) eqn:Ex;
    try destruct (Z.even _); rewrite ?inject_Z_plus;
    change (inject_Z 1) with 1;
    first [apply Qeq_alt in Ex | apply Qlt_alt in Ex | apply Qgt_alt in Ex];
    split; lra.
Qed.

Lemma np_round3_error x :
  - (1 # 2000) <= np_round3 x - x ∧ np_round3 x - x <= 1 # 2000.
Proof.
  destruct (rint_error (x * 1000)) as [H1 H2]. unfold np_round3.
  split; qlra.
Qed.

Lemma np_max_nonempty (counts : list nat) : counts ≠ [] → ∃ m, np_max counts = Ok m.
Proof. destruct counts; [done|]. intros _. by eexists. Qed.

Lemma normalized_top (counts : list nat) (i c : nat) :
  counts !! i = Some c → (0 < c)%nat → (∀ x, x ∈ counts → (x ≤ c)%nat) →
  ∃ v, normalized counts !! i = Some v ∧ v == 1.
Proof.
  intros Hi Hpos Hmax. rewrite (normalized_lookup _ _ _ Hi). eexists. split; [done|].
  assert (c ∈ counts) as Hin by (by eapply list_elem_of_lookup_2).
  destruct (np_max_nonempty counts) as [m Hm]; [by intros ->; apply elem_of_nil in Hin|].
  destruct (np_max_spec _ _ Hm) as [Hm1 Hm2].
  assert (m = c) as -> by (specialize (Hmax m Hm1); specialize (Hm2 c Hin); lia).
  destruct (percentile_in_range counts c Hm Hpos) as [H1 H2].
  destruct (forallb _ counts) eqn:Hall.
  { apply forallb_zero_Forall in Hall. rewrite Forall_forall in Hall.
    specialize (Hall c Hin). lia. }
  set (p := np_percentile _ 90) in *.
  assert (1 <= QofN c / Qmax p 1) as Hr.
  { apply Qle_shift_div_l; split_minmax; lra. }
  split_minmax; lra.
Qed.

Lemma normalized_mono (counts : list nat) (i j ci cj : nat) vi vj :
  counts !! i = Some ci → counts !! j = Some cj → (ci ≤ cj)%nat →
  normalized counts !! i = Some vi → normalized counts !! j = Some vj →
  vi <= vj.
Proof.
  intros Hi Hj Hle. rewrite (normalized_lookup _ _ _ Hi), (normalized_lookup _ _ _ Hj).
  intros [= <-] [= <-]. destruct (forallb _ counts); [lra|].
  set (cap := Qmax _ 1). assert (1 <= cap) as Hcap by apply Q.le_max_r.
  assert (QofN ci / cap <= QofN cj / cap) as Hr.
  { apply QofN_le in Hle. unfold Qdiv. apply Qmult_le_compat_r; [done|].
    apply Qinv_le_0_compat. lra. }
  split_minmax; lra.
Qed.

Lemma clean_formula_antitone (ci cj : nat) :
  (ci ≤ cj)%nat → clean_formula cj <= clean_formula ci.
Proof.
  intros Hle. unfold clean_formula.
  pose proof (QofN_nonneg cj). apply QofN_le in Hle as Hq.
  destruct (Nat.eqb_spec cj 0) as [->|Hj].
  - assert (ci = 0%nat) as -> by lia. cbn. lra.
  - destruct (Nat.eqb_spec ci 0) as [->|Hi].
    + split_minmax; lra.
    + split_minmax; lra.
Qed.

Lemma noise_formula_antitone db db' :
  db <= db' → noise_formula db' <= noise_formula db.
Proof. intros H. rewrite !noise_formula_clamp. split_minmax; qlra. Qed.

(** ** The score columns *)

Section Columns.

Context (O : IndexOrder).
Context (edges : GeoDataFrame) (noise_gdf : list NoiseRow).
Context (tree_points cleaning_points poi_points : list Point).
Context (out : GeoDataFrame) (m : Matches).
Context (Hout : score_streets O edges noise_gdf tree_points cleaning_points
                  poi_points = Ok out).
Context (Hm : match_edges O edges noise_gdf tree_points cleaning_points
                poi_points = Ok m).

Lemma scored_columns (i : nat) :
  score_at out "noise_score" i = np_round3 <$> noise_scores m !! i
  ∧ score_at out "green_score" i = np_round3 <$> normalized (tree_counts m) !! i
  ∧ score_at out "clean_score" i
    = np_round3 <$> (clean_formula <$> cleaning_counts m) !! i
  ∧ score_at out "cultural_score" i
    = np_round3 <$> normalized (poi_counts m) !! i.
Proof.
  pose proof (score_streets_located _ _ _ _ _ _ _ Hout) as Hloc.
  apply score_streets_inv in Hout as (Hn & _ & ->).
  rewrite match_edges_spec in Hm by done. injection Hm as <-.
  apply assign_scores_columns.
Qed.

End Columns.

(** X17. Whenever some segment has a tree (POI) nearby, the segments with
    the largest tree (POI) count get the green (cultural) score 1. *)
Theorem top_count_scores_one O edges noise_gdf tree_points cleaning_points
    poi_points out m :
  score_streets O edges noise_gdf tree_points cleaning_points poi_points = Ok out →
  match_edges O edges noise_gdf tree_points cleaning_points poi_points = Ok m →
  (∀ (i c : nat),
      tree_counts m !! i = Some c → (0 < c)%nat →
      (∀ c', c' ∈ tree_counts m → (c' ≤ c)%nat) →
      ∃ v, score_at out "green_score" i = Some v ∧ v == 1)
  ∧ (∀ (i c : nat),
      poi_counts m !! i = Some c → (0 < c)%nat →
      (∀ c', c' ∈ poi_counts m → (c' ≤ c)%nat) →
      ∃ v, score_at out "cultural_score" i = Some v ∧ v == 1).
Proof.
  intros Hout Hm. split; intros i c Hi Hpos Hmax;
    destruct (scored_columns O _ _ _ _ _ _ _ Hout Hm i) as (_ & Hg & _ & Hk);
    destruct (normalized_top _ i c Hi Hpos Hmax) as (v & Hv & Hv1);
    exists (np_round3 v); rewrite ?Hg, ?Hk, Hv; (split; [done|]);
    rewrite (np_round3_comp v 1 Hv1); vm_compute; reflexivity.
Qed.

Lemma top_count_scores_one_witness :
  (∀ (i c : nat),
      [3; 0]%nat !! i = Some c → (0 < c)%nat →
      (∀ c', c' ∈ [3; 0]%nat → (c' ≤ c)%nat) →
      ∃ v, score_at sample_scored "green_score" i = Some v ∧ v == 1)
  ∧ (∀ (i c : nat),
      [0; 0]%nat !! i = Some c → (0 < c)%nat →
      (∀ c', c' ∈ [0; 0]%nat → (c' ≤ c)%nat) →
      ∃ v, score_at sample_scored "cultural_score" i = Some v ∧ v == 1).
Proof.
  apply (top_count_scores_one sorted_order sample_edges sample_noise sample_trees
           [(0, 0)] [] sample_scored
           {| noise_scores := [noise_formula 72.5; 0.5];
              tree_counts := [3; 0]%nat; cleaning_counts := [1; 0]%nat;
              poi_counts := [0; 0]%nat |}).
  - vm_compute. reflexivity.
  - vm_compute. reflexivity.
Defined.

(** X18. Within one run the scores respect the raw counts: a segment with
    at least as many trees (POIs) as another has at least its green
    (cultural) score, and a segment with at least as many cleaning spots
    has at most its clean score. *)
Theorem scores_follow_counts O edges noise_gdf tree_points cleaning_points
    poi_points out m (i j : nat) :
  score_streets O edges noise_gdf tree_points cleaning_points poi_points = Ok out →
  match_edges O edges noise_gdf tree_points cleaning_points poi_points = Ok m →
  (i < length (rows edges))%nat → (j < length (rows edges))%nat →
  ∃ ti tj ci cj pi pj gi gj li lj ki kj,
    tree_counts m !! i = Some ti ∧ tree_counts m !! j = Some tj
    ∧ cleaning_counts m !! i = Some ci ∧ cleaning_counts m !! j = Some cj
    ∧ poi_counts m !! i = Some pi ∧ poi_counts m !! j = Some pj
    ∧ score_at out "green_score" i = Some gi
    ∧ score_at out "green_score" j = Some gj
    ∧ score_at out "clean_score" i = Some li
    ∧ score_at out "clean_score" j = Some lj
    ∧ score_at out "cultural_score" i = Some ki
    ∧ score_at out "cultural_score" j = Some kj
    ∧ ((ti ≤ tj)%nat → gi <= gj)
    ∧ ((ci ≤ cj)%nat → lj <= li)
    ∧ ((pi ≤ pj)%nat → ki <= kj).
Proof.
  intros Hout Hm Hi Hj.
  destruct (scored_columns O _ _ _ _ _ _ _ Hout Hm i) as (_ & Hgi & Hli & Hki).
  destruct (scored_columns O _ _ _ _ _ _ _ Hout Hm j) as (_ & Hgj & Hlj & Hkj).
  pose proof (score_streets_located _ _ _ _ _ _ _ Hout) as Hloc.
  apply score_streets_inv in Hout as (Hn & _ & _).
  rewrite match_edges_spec in Hm by done. injection Hm as <-.
  cbn [tree_counts cleaning_counts poi_counts] in *.
  destruct (lookup_lt_is_Some_2 _ _ Hi) as [ei Hei].
  destruct (lookup_lt_is_Some_2 _ _ Hj) as [ej Hej].
  assert (∀ points k e, rows edges !! k = Some e →
            (segment_count points <$> rows edges) !! k
            = Some (segment_count points e)) as Hc
    by (intros; by rewrite list_lookup_fmap; apply fmap_Some; eauto).
  destruct (normalized_cap_normalised _ _ _ (Hc tree_points i ei Hei)) as (gi & Hgi' & _).
  destruct (normalized_cap_normalised _ _ _ (Hc tree_points j ej Hej)) as (gj & Hgj' & _).
  destruct (normalized_cap_normalised _ _ _ (Hc poi_points i ei Hei)) as (ki & Hki' & _).
  destruct (normalized_cap_normalised _ _ _ (Hc poi_points j ej Hej)) as (kj & Hkj' & _).
  rewrite Hgi' in Hgi. rewrite Hgj' in Hgj. rewrite Hki' in Hki. rewrite Hkj' in Hkj.
  rewrite list_lookup_fmap, (Hc cleaning_points i ei Hei) in Hli.
  rewrite list_lookup_fmap, (Hc cleaning_points j ej Hej) in Hlj.
  eexists _, _, _, _, _, _, _, _, _, _, _, _.
  do 6 (split; [by apply Hc|]).
  split; [rewrite Hgi; reflexivity|]. split; [rewrite Hgj; reflexivity|].
  split; [rewrite Hli; reflexivity|]. split; [rewrite Hlj; reflexivity|].
  split; [rewrite Hki; reflexivity|]. split; [rewrite Hkj; reflexivity|].
  split; [|split]; intros Hle; apply np_round3_mono.
  - eapply (normalized_mono _ i j);
      [by apply Hc | by apply Hc | exact Hle | exact Hgi' | exact Hgj'].
  - by apply clean_formula_antitone.
  - eapply (normalized_mono _ i j);
      [by apply Hc | by apply Hc | exact Hle | exact Hki' | exact Hkj'].
Qed.

Lemma scores_follow_counts_witness :
  ∃ ti tj ci cj pi pj gi gj li lj ki kj,
    [3; 0]%nat !! 1%nat = Some ti ∧ [3; 0]%nat !! 0%nat = Some tj
    ∧ [1; 0]%nat !! 1%nat = Some ci ∧ [1; 0]%nat !! 0%nat = Some cj
    ∧ [0; 0]%nat !! 1%nat = Some pi ∧ [0; 0]%nat !! 0%nat = Some pj
    ∧ score_at sample_scored "green_score" 1 = Some gi
    ∧ score_at sample_scored "green_score" 0 = Some gj
    ∧ score_at sample_scored "clean_score" 1 = Some li
    ∧ score_at sample_scored "clean_score" 0 = Some lj
    ∧ score_at sample_scored "cultural_score" 1 = Some ki
    ∧ score_at sample_scored "cultural_score" 0 = Some kj
    ∧ ((ti ≤ tj)%nat → gi <= gj)
    ∧ ((ci ≤ cj)%nat → lj <= li)
    ∧ ((pi ≤ pj)%nat → ki <= kj).
Proof.
  apply (scores_follow_counts sorted_order sample_edges sample_noise sample_trees
           [(0, 0)] [] sample_scored
           {| noise_scores := [noise_formula 72.5; 0.5];
              tree_counts := [3; 0]%nat; cleaning_counts := [1; 0]%nat;
              poi_counts := [0; 0]%nat |} 1 0).
  - vm_compute. reflexivity.
  - vm_compute. reflexivity.
  - cbn. lia.
  - cbn. lia.
Defined.

(** X19. A louder observation never gives a higher noise score, before
    and after the rounding to three decimals. *)
Theorem louder_never_scores_higher db db' :
  db <= db' →
  noise_formula db' <= noise_formula db
  ∧ np_round3 (noise_formula db') <= np_round3 (noise_formula db).
Proof.
  intros H. split; [|apply np_round3_mono]; by apply noise_formula_antitone.
Qed.

Lemma louder_never_scores_higher_witness :
  noise_formula 72.5 <= noise_formula 50
  ∧ np_round3 (noise_formula 72.5) <= np_round3 (noise_formula 50).
Proof. apply louder_never_scores_higher. vm_compute. discriminate. Defined.

Lemma np_round3_three_decimals x :
  0 <= x → x <= 1 → three_decimals x (Some (np_round3 x)).
Proof.
  intros H0 H1. exists (rint (x * 1000)). split; [done|].
  destruct (np_round3_error x) as [He1 He2]. unfold np_round3 in *.
  split; [|done]. split.
  - apply rint_lower. change (inject_Z 0) with 0. lra.
  - apply rint_upper. change (inject_Z 1000) with 1000. lra.
Qed.

(** X20. Every exported score is the score computed by the pass rounded
    to three decimals: a multiple of 0.001 between 0 and 1 that differs
    from the unrounded score by at most 0.0005. *)
Theorem exported_scores_rounded O edges noise_gdf tree_points cleaning_points
    poi_points s out (i : nat) :
  score_arrays O edges noise_gdf tree_points cleaning_points poi_points = Ok s →
  score_streets O edges noise_gdf tree_points cleaning_points poi_points = Ok out →
  (∀ x, noise s !! i = Some x → three_decimals x (score_at out "noise_score" i))
  ∧ (∀ x, green s !! i = Some x → three_decimals x (score_at out "green_score" i))
  ∧ (∀ x, clean s !! i = Some x → three_decimals x (score_at out "clean_score" i))
  ∧ (∀ x, cultural s !! i = Some x
          → three_decimals x (score_at out "cultural_score" i)).
Proof.
  intros (_ & _ & ->)%score_arrays_inv (_ & _ & ->)%score_streets_inv.
  destruct (assign_scores_columns edges
              (reference_scores edges noise_gdf tree_points cleaning_points
                 poi_points) i) as (-> & -> & -> & ->).
  cbn [noise green clean cultural reference_scores].
  repeat split; intros x Hx; rewrite Hx; apply np_round3_three_decimals.
  - apply list_lookup_fmap_Some in Hx as (e & -> & _). apply segment_noise_bounds.
  - apply list_lookup_fmap_Some in Hx as (e & -> & _). apply segment_noise_bounds.
  - by eapply normalized_bounds.
  - by eapply normalized_bounds.
  - rewrite <- list_fmap_compose in Hx.
    apply list_lookup_fmap_Some in Hx as (e & -> & _). apply clean_formula_bounds.
  - rewrite <- list_fmap_compose in Hx.
    apply list_lookup_fmap_Some in Hx as (e & -> & _). apply clean_formula_bounds.
  - by eapply normalized_bounds.
  - by eapply normalized_bounds.
Qed.

Lemma exported_scores_rounded_witness :
  (∀ x, noise (reference_scores sample_edges sample_noise sample_trees [(0, 0)] [])
          !! 0%nat = Some x
        → three_decimals x (score_at sample_scored "noise_score" 0))
  ∧ (∀ x, green (reference_scores sample_edges sample_noise sample_trees [(0, 0)] [])
            !! 0%nat = Some x
          → three_decimals x (score_at sample_scored "green_score" 0))
  ∧ (∀ x, clean (reference_scores sample_edges sample_noise sample_trees [(0, 0)] [])
            !! 0%nat = Some x
          → three_decimals x (score_at sample_scored "clean_score" 0))
  ∧ (∀ x, cultural (reference_scores sample_edges sample_noise sample_trees
                      [(0, 0)] []) !! 0%nat = Some x
          → three_decimals x (score_at sample_scored "cultural_score" 0)).
Proof.
  apply (exported_scores_rounded sorted_order sample_edges sample_noise
           sample_trees [(0, 0)] []).
  - vm_compute. reflexivity.
  - vm_compute. reflexivity.
Defined.

(** X21. [score_streets] touches nothing but the four score columns: the
    rows are the input's rows, every other column is as in the input, and
    each score column has one entry per row (replacing a column of that
    name if the input had one). *)
Theorem score_streets_columns O edges noise_gdf tree_points cleaning_points
    poi_points out :
  score_streets O edges noise_gdf tree_points cleaning_points poi_points = Ok out →
  rows out = rows edges
  ∧ (∀ col, col ∉ score_columns → columns out !! col = columns edges !! col)
  ∧ (∀ col, col ∈ score_columns →
       ∃ values, columns out !! col = Some values
                 ∧ length values = length (rows edges)).
Proof.
  intros (Hn & _ & ->)%score_streets_inv. split; [done|]. split.
  - intros col Hcol. unfold assign_scores, setitem, score_columns in *. cbn [columns].
    rewrite !not_elem_of_cons in Hcol. destruct Hcol as (? & ? & ? & ? & _).
    by rewrite !lookup_insert_ne.
  - intros col Hcol. unfold assign_scores, setitem, score_columns in *. cbn [columns].
    repeat (apply elem_of_cons in Hcol as [->|Hcol]);
      [| | | | by apply elem_of_nil in Hcol];
      simplify_map_eq; eexists; (split; [done|]);
      rewrite ?length_fmap, ?normalized_length, ?length_fmap; done.
Qed.

Lemma score_streets_columns_witness :
  rows sample_scored = rows sample_edges
  ∧ (∀ col, col ∉ score_columns
       → columns sample_scored !! col = columns sample_edges !! col)
  ∧ (∀ col, col ∈ score_columns →
       ∃ values, columns sample_scored !! col = Some values
                 ∧ length values = length (rows sample_edges)).
Proof.
  apply (score_streets_columns sorted_order sample_edges sample_noise sample_trees
           [(0, 0)] []).
  vm_compute. reflexivity.
Defined.

(** X22. The four scores are computed independently: the noise column
    depends on no point cloud, and the green, clean and cultural columns
    depend only on the tree, cleaning and POI points respectively. *)
Theorem score_columns_independent O edges noise_gdf tree_points tree_points'
    cleaning_points cleaning_points' poi_points poi_points' out out' :
  score_streets O edges noise_gdf tree_points cleaning_points poi_points = Ok out →
  score_streets O edges noise_gdf tree_points' cleaning_points' poi_points'
  = Ok out' →
  columns out !! "noise_score" = columns out' !! "noise_score"
  ∧ (tree_points = tree_points' →
     columns out !! "green_score" = columns out' !! "green_score")
  ∧ (cleaning_points = cleaning_points' →
     columns out !! "clean_score" = columns out' !! "clean_score")
  ∧ (poi_points = poi_points' →
     columns out !! "cultural_score" = columns out' !! "cultural_score").
Proof.
  intros (_ & _ & ->)%score_streets_inv (_ & _ & ->)%score_streets_inv.
  unfold assign_scores, setitem. cbn [columns].
  repeat split; try intros ->; by simplify_map_eq.
Qed.

Lemma score_columns_independent_witness :
  columns sample_scored !! "noise_score"
  = columns (assign_scores sample_edges
               (reference_scores sample_edges sample_noise [] [(0, 0)] [(0, 0)]))
      !! "noise_score"
  ∧ (sample_trees = [] →
     columns sample_scored !! "green_score"
     = columns (assign_scores sample_edges
                  (reference_scores sample_edges sample_noise [] [(0, 0)] [(0, 0)]))
         !! "green_score")
  ∧ ([(0, 0)] = [(0, 0)] →
     columns sample_scored !! "clean_score"
     = columns (assign_scores sample_edges
                  (reference_scores sample_edges sample_noise [] [(0, 0)] [(0, 0)]))
         !! "clean_score")
  ∧ ([] = [(0, 0)] →
     columns sample_scored !! "cultural_score"
     = columns (assign_scores sample_edges
                  (reference_scores sample_edges sample_noise [] [(0, 0)] [(0, 0)]))
         !! "cultural_score").
Proof.
  apply (score_columns_independent sorted_order sample_edges sample_noise
           sample_trees [] [(0, 0)] [(0, 0)] [] [(0, 0)]).
  - vm_compute. reflexivity.
  - vm_compute. reflexivity.
Defined.

(** ** Export *)

Lemma select_length_le {A} (mask : list bool) (values : list A) :
  (length (select mask values) ≤ length (filter (λ b, b = true) mask))%nat.
Proof.
  revert values. induction mask as [|b mask IH]; intros [|v values];
    cbn [select length]; try lia.
  specialize (IH values). rewrite filter_cons.
  destruct b; cbn [length]; [rewrite decide_True by done|rewrite decide_False by done];
    cbn [length]; lia.
Qed.

Lemma select_rows {A} (f : A → bool) (l : list A) :
  select (f <$> l) l = filter (λ x, f x = true) l.
Proof.
  induction l as [|x l IH]; [done|]. rewrite fmap_cons. cbn [select].
  rewrite filter_cons, IH. destruct (decide (f x = true)) as [Hx|Hx].
  - by rewrite Hx.
  - apply not_true_is_false in Hx. by rewrite Hx.
Qed.

Lemma select_column {A B} (f : A → bool) (g : A → B) (l : list A) :
  select (f <$> l) (g <$> l) = g <$> filter (λ x, f x = true) l.
Proof.
  induction l as [|x l IH]; [done|]. rewrite !fmap_cons. cbn [select].
  rewrite filter_cons, IH. destruct (decide (f x = true)) as [Hx|Hx].
  - by rewrite Hx.
  - apply not_true_is_false in Hx. by rewrite Hx.
Qed.

Lemma select_all {A} (mask : list bool) (values : list A) :
  Forall (λ b, b = true) mask → (length values ≤ length mask)%nat →
  select mask values = values.
Proof.
  revert values. induction mask as [|b mask IH]; intros [|v values]; cbn; try done.
  - lia.
  - intros [-> Hm]%Forall_cons Hl. rewrite IH; [done|done|lia].
Qed.

Lemma filter_true_fmap {A} (f : A → bool) (l : list A) :
  length (filter (λ b, b = true) (f <$> l)) = length (filter (λ x, f x = true) l).
Proof.
  induction l as [|x l IH]; [done|]. rewrite fmap_cons, !filter_cons.
  destruct (decide (f x = true)); cbn [length]; by rewrite IH.
Qed.

Lemma export_mask_not_empty edge : export_mask edge = true → not_empty edge = true.
Proof.
  unfold export_mask, not_empty. destruct (geometry edge) as [g|]; [|done].
  by destruct (is_empty g).
Qed.

Lemma export_mask_spec edge :
  export_mask edge = true
  ↔ ∃ g, geometry edge = Some g ∧ is_empty g = false
         ∧ 2.13 <= (centroid g).1 ∧ (centroid g).1 <= 2.21
         ∧ 41.37 <= (centroid g).2 ∧ (centroid g).2 <= 41.42.
Proof.
  unfold export_mask, in_bbox. destruct (geometry edge) as [g|].
  - destruct (is_empty g) eqn:He.
    + split; [done|]. intros (g' & [= <-] & ? & _). congruence.
    + rewrite !andb_true_iff, !Qleb_le. split.
      * intros (((? & ?) & ?) & ?). by exists g.
      * intros (g' & [= <-] & _ & ? & ? & ? & ?). done.
  - split; [done|]. by intros (g' & ? & _).
Qed.

Lemma second_drop_keeps_all (df : GeoDataFrame) (values : list Q) :
  select (not_empty <$> select (export_mask <$> rows df) (rows df))
    (select (export_mask <$> rows df) values)
  = select (export_mask <$> rows df) values.
Proof.
  apply select_all.
  - rewrite select_rows. apply Forall_fmap, Forall_forall.
    intros e [He _]%list_elem_of_filter. by apply export_mask_not_empty.
  - rewrite length_fmap, select_rows.
    etrans; [apply select_length_le|]. by rewrite filter_true_fmap.
Qed.

Lemma second_drop_keeps_rows (df : GeoDataFrame) :
  select (not_empty <$> select (export_mask <$> rows df) (rows df))
    (select (export_mask <$> rows df) (rows df))
  = filter (λ e, export_mask e = true) (rows df).
Proof.
  rewrite select_all; [apply select_rows| |by rewrite length_fmap].
  rewrite select_rows. apply Forall_fmap, Forall_forall.
  intros e [He _]%list_elem_of_filter. by apply export_mask_not_empty.
Qed.

Lemma round_row_Some round_geometry edge row :
  round_row round_geometry edge = Some row
  ↔ ∃ g, geometry edge = Some g
         ∧ row = {| name := name edge; geometry := Some (round_geometry g) |}.
Proof.
  unfold round_row. destruct (geometry edge) as [g|]; cbn.
  - split; [intros [= <-]; by exists g|]. by intros (g' & [= <-] & ->).
  - split; [done|]. by intros (g' & ? & _).
Qed.

Lemma round_masked round_geometry (l : list Edge) :
  is_Some (mapM (round_row round_geometry) (filter (λ e, export_mask e = true) l)).
Proof.
  apply mapM_is_Some, Forall_forall. intros e [He _]%list_elem_of_filter.
  apply export_mask_spec in He as (g & Hg & _). cbn. unfold round_row.
  by rewrite Hg.
Qed.

Lemma export_geojson_Some round_geometry df :
  (∀ col, col ∈ score_columns → is_Some (columns df !! col)) →
  ∃ n g c k rounded,
    columns df !! "noise_score" = Some n ∧ columns df !! "green_score" = Some g
    ∧ columns df !! "clean_score" = Some c ∧ columns df !! "cultural_score" = Some k
    ∧ Forall2 (λ e row, round_row round_geometry e = Some row)
        (filter (λ e, export_mask e = true) (rows df)) rounded
    ∧ export_geojson round_geometry df
      = Some {| rows := rounded;
                columns :=
                  {[ "noise_score" := select (export_mask <$> rows df) n;
                     "green_score" := select (export_mask <$> rows df) g;
                     "clean_score" := select (export_mask <$> rows df) c;
                     "cultural_score" := select (export_mask <$> rows df) k ]} |}.
Proof.
  intros Hcols.
  destruct (Hcols "noise_score"%string) as [n Hn]; [set_solver|].
  destruct (Hcols "green_score"%string) as [g Hg]; [set_solver|].
  destruct (Hcols "clean_score"%string) as [c Hc]; [set_solver|].
  destruct (Hcols "cultural_score"%string) as [k Hk]; [set_solver|].
  destruct (round_masked round_geometry (rows df)) as [rounded Hr].
  exists n, g, c, k, rounded. do 4 (split; [done|]).
  split; [by apply mapM_Some|].
  unfold export_geojson, keep_scores, frame_select. cbn [rows columns].
  rewrite !lookup_fmap, Hn, Hg, Hc, Hk. cbn [fmap option_fmap option_map mbind option_bind].
  cbn [rows columns]. rewrite second_drop_keeps_rows, Hr.
  cbn [fmap option_fmap option_map mbind option_bind]. f_equal. f_equal.
  rewrite !fmap_insert, map_fmap_singleton. by rewrite !second_drop_keeps_all.
Qed.

Lemma select_aligned {A} (mask : list bool) (xs : list A) (k : nat) x :
  length xs = length mask →
  select mask xs !! k = Some x →
  ∃ i : nat, xs !! i = Some x ∧ mask !! i = Some true
    ∧ ∀ ys : list Q, length ys = length mask → select mask ys !! k = ys !! i.
Proof.
  revert xs k. induction mask as [|b mask IH]; intros [|x0 xs] k; cbn [select length];
    try done.
  intros [= Hlen] Hk. destruct b.
  - destruct k as [|k].
    + injection Hk as <-. exists 0%nat. repeat split; try done.
      intros [|y ys]; [done|]. done.
    + destruct (IH xs k Hlen Hk) as (i & Hi & Hm & Hys).
      exists (S i). repeat split; try done.
      intros [|y ys]; [done|]. intros [= Hl]. cbn. by apply Hys.
  - destruct (IH xs k Hlen Hk) as (i & Hi & Hm & Hys).
    exists (S i). repeat split; try done.
    intros [|y ys]; [done|]. intros [= Hl]. cbn. by apply Hys.
Qed.

Lemma keep_scores_None (df : GeoDataFrame) :
  keep_scores df = None ↔ ∃ col, col ∈ score_columns ∧ columns df !! col = None.
Proof.
  unfold keep_scores, score_columns. split.
  - destruct (columns df !! "noise_score") eqn:H1; cbn;
      [|intros _; exists "noise_score"%string; split; [set_solver|done]].
    destruct (columns df !! "green_score") eqn:H2; cbn;
      [|intros _; exists "green_score"%string; split; [set_solver|done]].
    destruct (columns df !! "clean_score") eqn:H3; cbn;
      [|intros _; exists "clean_score"%string; split; [set_solver|done]].
    destruct (columns df !! "cultural_score") eqn:H4; cbn;
      [done|intros _; exists "cultural_score"%string; split; [set_solver|done]].
  - intros (col & Hcol & Hnone).
    repeat (apply elem_of_cons in Hcol as [->|Hcol]);
      [| | | | by apply elem_of_nil in Hcol].
    + by rewrite Hnone.
    + destruct (columns df !! "noise_score"); cbn; [|done]. by rewrite Hnone.
    + destruct (columns df !! "noise_score"); cbn; [|done].
      destruct (columns df !! "green_score"); cbn; [|done]. by rewrite Hnone.
    + destruct (columns df !! "noise_score"); cbn; [|done].
      destruct (columns df !! "green_score"); cbn; [|done].
      destruct (columns df !! "clean_score"); cbn; [|done]. by rewrite Hnone.
Qed.

Lemma export_geojson_None round_geometry df :
  export_geojson round_geometry df = None
  ↔ ∃ col, col ∈ score_columns ∧ columns df !! col = None.
Proof.
  split.
  - intros Hnone.
    destruct (decide (Forall (λ col, is_Some (columns df !! col)) score_columns))
      as [Hall|Hsome].
    + destruct (export_geojson_Some round_geometry df)
        as (? & ? & ? & ? & ? & _ & _ & _ & _ & _ & Heq);
        [by apply Forall_forall|congruence].
    + apply not_Forall_Exists in Hsome; [|apply _].
      apply Exists_exists in Hsome as (col & Hcol & Hc). exists col. split; [done|].
      cbn in Hc. by apply eq_None_not_Some.
  - intros Hmiss. unfold export_geojson.
    assert (keep_scores (frame_select (export_mask <$> rows df) df) = None) as ->;
      [|done].
    apply keep_scores_None. destruct Hmiss as (col & Hcol & Hnone).
    exists col. split; [done|]. unfold frame_select. cbn [columns].
    by rewrite lookup_fmap, Hnone.
Qed.

(** X23. [export_geojson] raises exactly when one of the four score
    columns is missing.  Otherwise it exports, in their order, the
    segments that have a non-empty geometry whose centroid lies in the
    closed box 2.13..2.21 by 41.37..41.42, each with its geometry rounded
    (no missing geometry reaches the rounding, and the later removal of
    empty geometries finds nothing to remove), and of the columns only
    the four scores, cut down by the same mask. *)
Theorem export_geojson_output round_geometry df :
  (export_geojson round_geometry df = None
   ↔ ∃ col, col ∈ score_columns ∧ columns df !! col = None)
  ∧ (∀ exported, export_geojson round_geometry df = Some exported →
       Forall2 (λ e row, round_row round_geometry e = Some row)
         (filter (λ e, export_mask e = true) (rows df)) (rows exported)
       ∧ (∀ col, col ∈ score_columns →
            columns exported !! col
            = select (export_mask <$> rows df) <$> columns df !! col)
       ∧ (∀ col, col ∉ score_columns → columns exported !! col = None))
  ∧ (∀ edge,
       export_mask edge = true
       ↔ ∃ g, geometry edge = Some g ∧ is_empty g = false
              ∧ 2.13 <= (centroid g).1 ∧ (centroid g).1 <= 2.21
              ∧ 41.37 <= (centroid g).2 ∧ (centroid g).2 <= 41.42).
Proof.
  split; [apply export_geojson_None|]. split; [|apply export_mask_spec].
  intros exported Hex.
  destruct (export_geojson_Some round_geometry df)
    as (n & g & c & k & rounded & Hn & Hg & Hc & Hk & Hr & Heq).
  { intros col Hcol. destruct (columns df !! col) eqn:Hnone; [done|].
    assert (export_geojson round_geometry df = None) as Hbad
      by (apply export_geojson_None; eauto).
    congruence. }
  rewrite Heq in Hex. injection Hex as <-. cbn [rows columns].
  split; [done|]. split.
  - intros col Hcol. unfold score_columns in Hcol.
    repeat (apply elem_of_cons in Hcol as [->|Hcol]);
      [| | | | by apply elem_of_nil in Hcol];
      rewrite ?Hn, ?Hg, ?Hc, ?Hk; by simplify_map_eq.
  - intros col Hcol. unfold score_columns in Hcol.
    rewrite !not_elem_of_cons in Hcol. destruct Hcol as (? & ? & ? & ? & _).
    by simplify_map_eq.
Qed.

Lemma rounded_scores_bounds (xs : list Q) :
  Forall (λ x, 0 <= x <= 1) xs → Forall (λ v, 0 <= v <= 1) (np_round3 <$> xs).
Proof. intros H. apply Forall_fmap. eapply Forall_impl; [done|]. apply np_round3_bounds. Qed.

Lemma normalized_Forall counts : Forall (λ x, 0 <= x <= 1) (normalized counts).
Proof.
  apply Forall_forall. intros v [i Hi]%list_elem_of_lookup. by eapply normalized_bounds.
Qed.

Lemma scored_values edges noise_gdf tree_points cleaning_points poi_points col :
  col ∈ score_columns →
  ∃ values,
    columns (assign_scores edges
               (reference_scores edges noise_gdf tree_points cleaning_points
                  poi_points)) !! col = Some values
    ∧ length values = length (rows edges)
    ∧ Forall (λ v, 0 <= v <= 1) values.
Proof.
  intros Hcol. unfold assign_scores, setitem, score_columns in *. cbn [columns].
  repeat (apply elem_of_cons in Hcol as [->|Hcol]);
    [| | | | by apply elem_of_nil in Hcol];
    simplify_map_eq; eexists; (split; [done|]);
    (split; [rewrite ?length_fmap, ?normalized_length, ?length_fmap; done|]);
    apply rounded_scores_bounds; cbn [noise green clean cultural reference_scores].
  - apply Forall_fmap, Forall_forall. intros e _. apply segment_noise_bounds.
  - apply normalized_Forall.
  - apply Forall_fmap, Forall_forall. intros c _. apply clean_formula_bounds.
  - apply normalized_Forall.
Qed.

(** X24. Scoring followed by export never raises.  Every exported row is
    the rounded row of a segment that has a non-empty geometry with its
    centroid in the box, and carries that segment's four scores, each
    between 0 and 1; no more rows are exported than there are segments. *)
Theorem scored_export O edges noise_gdf tree_points cleaning_points poi_points
    round_geometry scored :
  score_streets O edges noise_gdf tree_points cleaning_points poi_points
  = Ok scored →
  ∃ exported,
    export_geojson round_geometry scored = Some exported
    ∧ (length (rows exported) ≤ length (rows edges))%nat
    ∧ ∀ (k : nat) row, rows exported !! k = Some row →
        ∃ (i : nat) edge,
          rows edges !! i = Some edge
          ∧ export_mask edge = true
          ∧ round_row round_geometry edge = Some row
          ∧ ∀ col, col ∈ score_columns →
              ∃ v, score_at exported col k = Some v
                   ∧ score_at scored col i = Some v
                   ∧ 0 <= v <= 1.
Proof.
  intros (_ & _ & ->)%score_streets_inv.
  set (scored := assign_scores edges _).
  pose proof (scored_values edges noise_gdf tree_points cleaning_points poi_points)
    as Hvalues. fold scored in Hvalues.
  destruct (export_geojson_Some round_geometry scored)
    as (n & g & c & q & rounded & Hn & Hg & Hc & Hq & Hr & Heq).
  { intros col Hcol. destruct (Hvalues col Hcol) as (values & -> & _). done. }
  eexists. split; [exact Heq|]. cbn [rows columns].
  assert (rows scored = rows edges) as Hrows by done. rewrite Hrows in *.
  split.
  { rewrite <- (Forall2_length _ _ _ Hr). apply length_filter. }
  intros k row Hk.
  destruct (Forall2_lookup_r _ _ _ _ _ Hr Hk) as (edge & Hedge & Hround).
  rewrite <- select_rows in Hedge.
  destruct (select_aligned _ _ _ _ (eq_sym (length_fmap _ _)) Hedge)
    as (i & Hi & Hmask & Hsel).
  exists i, edge. split; [done|].
  assert (export_mask edge = true) as Hm.
  { rewrite list_lookup_fmap, Hi in Hmask. by injection Hmask. }
  do 2 (split; [done|]).
  intros col Hcol. destruct (Hvalues col Hcol) as (values & Hv & Hlen & Hb).
  assert (is_Some (values !! i)) as [v Hvi].
  { apply lookup_lt_is_Some. rewrite Hlen. by eapply lookup_lt_Some. }
  exists v. unfold score_at. rewrite Hv. cbn [mbind option_bind].
  assert (select (export_mask <$> rows edges) values !! k = Some v) as Hkv.
  { rewrite Hsel; [done|]. by rewrite length_fmap. }
  split; [|split; [done|by eapply (Forall_lookup_1 _ _ _ _ Hb)]].
  unfold score_columns in Hcol.
  repeat (apply elem_of_cons in Hcol as [->|Hcol]);
    [| | | | by apply elem_of_nil in Hcol];
    simplify_map_eq; done.
Qed.

Lemma scored_export_witness :
  ∃ exported,
    export_geojson id
      (assign_scores sample_city_edges
         (reference_scores sample_city_edges sample_noise sample_trees [] []))
    = Some exported
    ∧ (length (rows exported) ≤ length (rows sample_city_edges))%nat
    ∧ ∀ (k : nat) row, rows exported !! k = Some row →
        ∃ (i : nat) edge,
          rows sample_city_edges !! i = Some edge
          ∧ export_mask edge = true
          ∧ round_row id edge = Some row
          ∧ ∀ col, col ∈ score_columns →
              ∃ v, score_at exported col k = Some v
                   ∧ score_at
                       (assign_scores sample_city_edges
                          (reference_scores sample_city_edges sample_noise
                             sample_trees [] [])) col i = Some v
                   ∧ 0 <= v <= 1.
Proof.
  apply (scored_export sorted_order sample_city_edges sample_noise sample_trees
           [] [] id).
  vm_compute. reflexivity.
Defined.

(** ** [main] *)



